(** * A shallow embedding of the text plagiarism checker (main.py)

    The pipeline is: [preprocess_text] (normalisation), [segment_text]
    (jieba, exhaustive mode, then a filter), [text_to_vector] (term
    frequencies over a shared vocabulary), [calculate_cosine_similarity],
    [calculate_edit_distance_similarity] and their weighted combination
    [calculate_similarity].

    Python [str] values are lists of Unicode code points; Python [float]
    values are IEEE-754 binary64 numbers, taken from the kernel's
    executable specification [SpecFloat] with [prec = 53], [emax = 1024];
    Python exceptions are an explicit error type. *)

From Stdlib Require Import ZArith List Bool Arith Lia Permutation.
From Stdlib Require Import Reals Lra.
From Stdlib Require Import Floats.SpecFloat.
From stdpp Require Import base list.

Import ListNotations.
Local Open Scope Z_scope.

(** ** Exceptions *)

Inductive exn : Type :=
| FileNotFoundError
| ValueError          (* "存在空文件，无法进行查重" : the empty-document error *)
| OverflowError
| ZeroDivisionError
| IndexError.

Inductive result (A : Type) : Type :=
| Ok (a : A)
| Raise (e : exn).

Arguments Ok {A} a.
Arguments Raise {A} e.

Global Instance result_ret : MRet result := fun A a => Ok a.

Global Instance result_bind : MBind result := fun A B k r =>
  match r with
  | Ok a => k a
  | Raise e => Raise e
  end.

(** ** Text *)

(** A character is a Unicode code point; a [str] is a sequence of them and
    [len] counts code points. *)
Definition char : Type := Z.
Definition str : Type := list char.

(** [Py_UNICODE_ISSPACE]: the code points matched by [\s] in a [str]
    pattern and removed by [str.strip()]. *)
Definition is_space (c : char) : bool :=
  ((9 <=? c) && (c <=? 13)) || ((28 <=? c) && (c <=? 32))
  || (c =? 133) || (c =? 160) || (c =? 5760)
  || ((8192 <=? c) && (c <=? 8202))
  || (c =? 8232) || (c =? 8233) || (c =? 8239) || (c =? 8287) || (c =? 12288).

Definition ascii_alnum (c : char) : bool :=
  ((48 <=? c) && (c <=? 57)) || ((65 <=? c) && (c <=? 90))
  || ((97 <=? c) && (c <=? 122)).

(** CJK Unified Ideographs U+4E00..U+9FA5: letters (category Lo). *)
Definition is_han (c : char) : bool := (19968 <=? c) && (c <=? 40869).

(** The stopword class [[的了是很我有和也吧啊你他她]]. *)
Definition stopwords : list char :=
  [30340; 20102; 26159; 24456; 25105; 26377; 21644; 20063; 21543; 21834;
   20320; 20182; 22905].

Definition is_stopword (c : char) : bool :=
  existsb (Z.eqb c) stopwords.

Definition space : char := 32.

Section Text.

(** The Unicode database is not part of the program.  Its alphanumeric
    table is fixed on ASCII and on the CJK block above; everywhere else
    it is the parameter [unicode_alnum]. *)
Variable unicode_alnum : char -> bool.

Definition isalnum (c : char) : bool :=
  if c <? 128 then ascii_alnum c
  else if is_han c then true
  else unicode_alnum c.

(** [\w] : alphanumeric or underscore. *)
Definition is_word (c : char) : bool := isalnum c || (c =? 95).

(** A punctuation character is one that [[^\w\s]] matches. *)
Definition is_punct (c : char) : bool := negb (is_word c || is_space c).

(** [re.sub(r'[^\w\s]', '', text)] *)
Definition remove_punct (text : str) : str :=
  List.filter (fun c => is_word c || is_space c) text.

(** [re.sub(r'\s+', ' ', text)]: every maximal run of whitespace becomes
    one space.  [in_run] tells that the previous character was
    whitespace, so the run has been replaced already. *)
Fixpoint sub_spaces (in_run : bool) (text : str) : str :=
  match text with
  | [] => []
  | c :: text' =>
      if is_space c
      then (if in_run then sub_spaces true text'
            else space :: sub_spaces true text')
      else c :: sub_spaces false text'
  end.

Fixpoint lstrip (text : str) : str :=
  match text with
  | [] => []
  | c :: text' => if is_space c then lstrip text' else text
  end.

Definition rstrip (text : str) : str := rev (lstrip (rev text)).

(** [str.strip()] *)
Definition strip (text : str) : str := rstrip (lstrip text).

(** [re.sub(r'[的了是很我有和也吧啊你他她]', '', text)] *)
Definition remove_stopwords (text : str) : str :=
  List.filter (fun c => negb (is_stopword c)) text.

(** The text after the first two statements of [preprocess_text]. *)
Definition clean (text : str) : str :=
  strip (sub_spaces false (remove_punct text)).

Definition preprocess_text (text : str) : str :=
  let text := remove_punct text in
  let text := strip (sub_spaces false text) in
  if (800 <? Z.of_nat (length text))
  then remove_stopwords text
  else text.

End Text.

(** ** Segmentation *)

Section Segment.

(** [jieba.lcut(text, cut_all=True)]: the exhaustive-mode segmenter of the
    jieba package with its dictionary loaded. *)
Variable jieba_lcut : str -> list str.

(** The truth value of [word.strip()]: the stripped word is not empty. *)
Definition strip_nonempty (word : str) : bool :=
  match strip word with
  | [] => false
  | _ :: _ => true
  end.

Definition segment_text (text : str) : list str :=
  let words := jieba_lcut text in
  let processed_words := List.filter strip_nonempty words in
  processed_words.

End Segment.

(** ** Term frequencies and vectors *)

Section Vector.

Context {K : Type} `{EqDecision K}.

(** A [Counter] is a dict: its keys are kept in the order of their first
    insertion, each with its count. *)
Fixpoint counter_incr (word : K) (c : list (K * Z)) : list (K * Z) :=
  match c with
  | [] => [(word, 1)]
  | (k, n) :: c' =>
      if decide (k = word) then (k, n + 1) :: c'
      else (k, n) :: counter_incr word c'
  end.

(** [Counter(words)] *)
Definition calculate_term_frequency (words : list K) : list (K * Z) :=
  fold_left (fun c word => counter_incr word c) words [].

(** [word in vocabulary] *)
Definition contains (word : K) (vocabulary : list K) : bool :=
  bool_decide (word ∈ vocabulary).

(** [vocabulary.index(word)]: the first position of [word], [ValueError]
    when it is absent. *)
Fixpoint index (word : K) (vocabulary : list K) : result nat :=
  match vocabulary with
  | [] => Raise ValueError
  | k :: vocabulary' =>
      if decide (k = word) then Ok O
      else i ← index word vocabulary'; Ok (S i)
  end.

(** [vector[idx] = count]: [IndexError] out of range. *)
Definition assign (vector : list Z) (idx : nat) (count : Z) : result (list Z) :=
  if (idx <? length vector)%nat then Ok (<[idx := count]> vector)
  else Raise IndexError.

(** The body of the loop over [word_count.items()]. *)
Definition vector_step (vocabulary : list K) (vector : list Z)
    (item : K * Z) : result (list Z) :=
  let '(word, count) := item in
  if contains word vocabulary then
    idx ← index word vocabulary;
    assign vector idx count
  else Ok vector.

Fixpoint vector_loop (vocabulary : list K) (items : list (K * Z))
    (vector : list Z) : result (list Z) :=
  match items with
  | [] => Ok vector
  | item :: items' =>
      vector' ← vector_step vocabulary vector item;
      vector_loop vocabulary items' vector'
  end.

Definition text_to_vector (words : list K) (vocabulary : list K)
    : result (list Z) :=
  let vector := replicate (length vocabulary) 0 in
  let word_count := calculate_term_frequency words in
  vector_loop vocabulary word_count vector.

End Vector.


(** ** Numbers *)

(** The operations the program performs on Python [float]s.  The program is
    written once over this interface and read at two instances: [binary64],
    the arithmetic CPython runs, and [exact], the same operations over the
    real numbers without rounding. *)
Class PyFloat (F : Type) : Type := {
  (** [float(i)] for an [int]; [OverflowError] when it is too large *)
  float_of_int : Z -> result F;
  (** [x + y], [x - y], [x * y] *)
  fadd : F -> F -> F;
  fsub : F -> F -> F;
  fmul : F -> F -> F;
  (** [x / y]; [ZeroDivisionError] when [y == 0] *)
  fdiv : F -> F -> result F;
  (** [x ** 2]; [OverflowError] when a finite [x] has an infinite square *)
  fpow2 : F -> result F;
  (** [x ** 0.5], for the [x >= 0] that a sum of squares is *)
  fpow_half : F -> F;
  (** [x == 0] *)
  feq_zero : F -> bool;
  (** [a / b] for two [int]s: the quotient rounded once *)
  int_truediv : Z -> Z -> result F;
  (** the literals [0.0] and [1.0] *)
  fzero : F;
  fone : F
}.

Module B64.

Definition prec : Z := 53.
Definition emax : Z := 1024.

Definition zero : spec_float := S754_zero false.
Definition one : spec_float := S754_finite false 4503599627370496 (-52).

Definition is_finite (x : spec_float) : bool :=
  match x with
  | S754_zero _ | S754_finite _ _ _ => true
  | _ => false
  end.

Definition is_infinite (x : spec_float) : bool :=
  match x with
  | S754_infinity _ => true
  | _ => false
  end.

(** [float(i)] rounds to nearest, ties to even; an [int] beyond the range of
    a double is refused. *)
Definition round_int (i : Z) : spec_float :=
  binary_normalize prec emax i 0 false.

Definition of_int (i : Z) : result spec_float :=
  let x := round_int i in
  if is_infinite x then Raise OverflowError else Ok x.

Definition div (x y : spec_float) : result spec_float :=
  if SFeqb y zero then Raise ZeroDivisionError
  else Ok (SFdiv prec emax x y).

(** [float_pow] with exponent 2: the C library's [pow], which is exact when
    the square is representable; an overflow of a finite base sets
    [ERANGE]. *)
Definition pow2 (x : spec_float) : result spec_float :=
  let y := SFmul prec emax x x in
  if is_finite x && is_infinite y then Raise OverflowError else Ok y.

(** The integers as (unnormalised) mantissas with exponent 0; [SFdiv]
    divides the mantissas with a sticky bit and rounds once. *)
Definition wide (i : Z) : spec_float :=
  match i with
  | Z0 => S754_zero false
  | Zpos p => S754_finite false p 0
  | Zneg p => S754_finite true p 0
  end.

(** A double between 0 and 1: zero, or a positive mantissa [m] and an
    exponent [e] with [m * 2^e <= 1]. *)
Definition in_unit (x : spec_float) : Prop :=
  match x with
  | S754_zero false => True
  | S754_finite false m e => e <= -52 /\ Zpos m <= 2 ^ (- e)
  | _ => False
  end.

Definition truediv (a b : Z) : result spec_float :=
  if b =? 0 then Raise ZeroDivisionError
  else
    let q := SFdiv prec emax (wide a) (wide b) in
    if is_infinite q then Raise OverflowError else Ok q.

End B64.

Global Instance binary64 : PyFloat spec_float := {|
  float_of_int := B64.of_int;
  fadd := SFadd B64.prec B64.emax;
  fsub := SFsub B64.prec B64.emax;
  fmul := SFmul B64.prec B64.emax;
  fdiv := B64.div;
  fpow2 := B64.pow2;
  fpow_half := SFsqrt B64.prec B64.emax;
  feq_zero := fun x => SFeqb x B64.zero;
  int_truediv := B64.truediv;
  fzero := B64.zero;
  fone := B64.one
|}.

Module Exact.

Definition eq_zero (x : R) : bool :=
  if Req_dec_T x 0 then true else false.

Definition div (x y : R) : result R :=
  if eq_zero y then Raise ZeroDivisionError else Ok (x / y)%R.

Definition truediv (a b : Z) : result R :=
  if b =? 0 then Raise ZeroDivisionError else Ok (IZR a / IZR b)%R.

End Exact.

Definition exact : PyFloat R := {|
  float_of_int := fun i => Ok (IZR i);
  fadd := Rplus;
  fsub := Rminus;
  fmul := Rmult;
  fdiv := Exact.div;
  fpow2 := fun x => Ok (x * x)%R;
  fpow_half := sqrt;
  feq_zero := Exact.eq_zero;
  int_truediv := Exact.truediv;
  fzero := 0%R;
  fone := 1%R
|}.

(** ** Edit distance *)

Section Levenshtein.

Context {A : Type} `{EqDecision A}.

Definition min3 (a b c : nat) : nat := Nat.min a (Nat.min b c).

(** Modelled from the spec: [Levenshtein.distance] comes from the
    Levenshtein package, which is not part of the repository.  It is the
    minimum number of single-character insertions, deletions and
    substitutions, each of cost one, that turn [s] into [t]. *)
Fixpoint levenshtein_distance (s t : list A) : nat :=
  match s with
  | [] => length t
  | a :: s' =>
      (fix inner (t : list A) : nat :=
         match t with
         | [] => length s
         | b :: t' =>
             min3 (S (levenshtein_distance s' t))
                  (S (inner t'))
                  ((if decide (a = b) then O else 1%nat)
                   + levenshtein_distance s' t')
         end) t
  end.

End Levenshtein.

(** ** The two similarities *)

Section Similarity.

Context {F : Type} {PF : PyFloat F}.

(** [sum(xs)]: the accumulation from left to right, starting from the
    [int] 0, which is 0.0 once a float is added.  (CPython 3.12 and later
    carry a compensation term as well; it stays zero while the partial
    sums are exact, as they are on the integer counts below [2^53].) *)
Definition sum (xs : list F) : F := fold_left fadd xs fzero.

Definition calculate_edit_distance_similarity (text1 text2 : str)
    : result F :=
  let edit_distance := Z.of_nat (levenshtein_distance text1 text2) in
  let max_length :=
    Z.max (Z.of_nat (length text1)) (Z.of_nat (length text2)) in
  if max_length =? 0 then Ok fone
  else
    q ← int_truediv edit_distance max_length;
    Ok (fsub fone q).

Definition calculate_cosine_similarity (vec1 vec2 : list Z) : result F :=
  vec1 ← mapM float_of_int vec1;
  vec2 ← mapM float_of_int vec2;
  let dot_product :=
    sum (map (fun xy => fmul (fst xy) (snd xy)) (combine vec1 vec2)) in
  squares1 ← mapM fpow2 vec1;
  let magnitude1 := fpow_half (sum squares1) in
  squares2 ← mapM fpow2 vec2;
  let magnitude2 := fpow_half (sum squares2) in
  if feq_zero magnitude1 || feq_zero magnitude2 then Ok fzero
  else fdiv dot_product (fmul magnitude1 magnitude2).

End Similarity.

(** ** The pipeline *)

(** What [calculate_similarity] prints: the two intermediate scores. *)
Inductive line (F : Type) : Type :=
| PrintCosine (x : F)        (* "余弦相似度：{x:.4f}" *)
| PrintEdit (x : F).         (* "编辑距离相似度：{x:.4f}" *)

Arguments PrintCosine {F} x.
Arguments PrintEdit {F} x.

(** A computation that prints and then returns or raises. *)
Record io (F A : Type) : Type := IO {
  stdout : list (line F);
  outcome : result A
}.

Arguments IO {F A} stdout outcome.
Arguments stdout {F A} i.
Arguments outcome {F A} i.

Global Instance io_ret {F} : MRet (io F) := fun A a => IO [] (Ok a).

Global Instance io_bind {F} : MBind (io F) := fun A B k m =>
  match outcome m with
  | Ok a => IO (stdout m ++ stdout (k a)) (outcome (k a))
  | Raise e => IO (stdout m) (Raise e)
  end.

Definition lift {F A} (r : result A) : io F A := IO [] r.
Definition print {F} (l : line F) : io F unit := IO [l] (Ok tt).

Section Pipeline.

Context {F : Type} {PF : PyFloat F}.

Variable unicode_alnum : char -> bool.
Variable jieba_lcut : str -> list str.

(** [list(set(words))]: the distinct words in the iteration order of the
    set, which the hashes and the insertion history decide. *)
Variable list_set : list str -> list str.

(** The files: the text stored at a path, if the path exists. *)
Context {Path : Type}.
Variable files : Path -> option str.

Definition read_file (file_path : Path) : result str :=
  match files file_path with
  | Some content => Ok content
  | None => Raise FileNotFoundError
  end.

(** [not text] for a [str] *)
Definition is_empty (text : str) : bool :=
  match text with
  | [] => true
  | _ :: _ => false
  end.

Definition calculate_similarity (file_path1 file_path2 : Path)
    (cosine_weight edit_distance_weight : F) : io F F :=
  raw_text1 ← lift (read_file file_path1);
  raw_text2 ← lift (read_file file_path2);
  let processed_text1 := preprocess_text unicode_alnum raw_text1 in
  let processed_text2 := preprocess_text unicode_alnum raw_text2 in
  if is_empty processed_text1 || is_empty processed_text2
  then lift (Raise ValueError)
  else
    let text1_words := segment_text jieba_lcut processed_text1 in
    let text2_words := segment_text jieba_lcut processed_text2 in
    let vocabulary := list_set (text1_words ++ text2_words) in
    vector1 ← lift (text_to_vector text1_words vocabulary);
    vector2 ← lift (text_to_vector text2_words vocabulary);
    cosine_similarity ← lift (calculate_cosine_similarity vector1 vector2);
    _ ← print (PrintCosine cosine_similarity);
    edit_similarity ← lift (calculate_edit_distance_similarity
                              processed_text1 processed_text2);
    _ ← print (PrintEdit edit_similarity);
    let final_similarity :=
      fadd (fmul cosine_weight cosine_similarity)
           (fmul edit_distance_weight edit_similarity) in
    mret final_similarity.

End Pipeline.

(** ** Properties of texts *)

Section TextProperties.

Variable unicode_alnum : char -> bool.

(** No character of the text is punctuation. *)
Definition no_punct (text : str) : bool :=
  forallb (fun c => negb (is_punct unicode_alnum c)) text.

(** Every whitespace character is one ASCII space that does not follow
    another whitespace character; [after_space] tells that the text
    follows a whitespace character. *)
Fixpoint spaced (after_space : bool) (text : str) : bool :=
  match text with
  | [] => true
  | c :: text' =>
      if is_space c
      then (c =? space) && negb after_space && spaced true text'
      else spaced false text'
  end.

(** No run of whitespace is longer than one space. *)
Definition single_spaced (text : str) : bool := spaced false text.

Definition head_not_space (text : str) : bool :=
  match text with
  | [] => true
  | c :: _ => negb (is_space c)
  end.

(** No leading and no trailing whitespace. *)
Definition trimmed (text : str) : bool :=
  head_not_space text && head_not_space (rev text).

Definition no_stopword (text : str) : bool :=
  forallb (fun c => negb (is_stopword c)) text.

(** The invariant the specification gives for a normalised text. *)
Definition normalized (text : str) : bool :=
  no_punct text && single_spaced text && trimmed text.

End TextProperties.

(** A long text in which a stopword stands between two spaces:
    800 underscores, then [" 的 _"]. *)
Definition long_text : str := repeat 95 800 ++ [32; 30340; 32; 95].

(** A Unicode table with no alphanumeric character outside ASCII and the
    CJK block. *)
Definition no_other_alnum : char -> bool := fun _ => false.

(** ** The segmenter's contract *)

(** What is assumed of jieba's exhaustive mode: a token is cut out of the
    text, and every whitespace character except the line feed separates
    tokens (the mode splits the text at each character outside
    [[\u4E00-\u9FD5a-zA-Z0-9+#\n]]). *)
Definition jieba_contract (lcut : str -> list str) : Prop :=
  forall text word c,
    In word (lcut text) -> In c word ->
    In c text /\ (is_space c = true -> c = 10).

(** A segmenter with an empty dictionary: every character that is not
    whitespace is a word of its own. *)
Definition sample_lcut (text : str) : list str :=
  map (fun c => [c]) (List.filter (fun c => negb (is_space c)) text).

(** ** Counting *)

Section Counting.

Context {K : Type} `{EqDecision K}.

(** The number of occurrences of [word] in [words]. *)
Fixpoint occurrences (word : K) (words : list K) : Z :=
  match words with
  | [] => 0
  | w :: words' =>
      (if decide (w = word) then 1 else 0) + occurrences word words'
  end.

(** [c[word]] for a [Counter]: the stored count, 0 for an absent key. *)
Fixpoint counter_get (c : list (K * Z)) (word : K) : Z :=
  match c with
  | [] => 0
  | (k, n) :: c' => if decide (k = word) then n else counter_get c' word
  end.

End Counting.

(** ** A sample environment *)

(** [list(set(words))] for a set that lists each word at its last occurrence. *)
Definition sample_list_set (words : list str) : list str := remove_dups words.

(** Three files: ["ab cd"], the empty file, and ["ab ef"]. *)
Definition sample_files (file_path : nat) : option str :=
  [[97; 98; 32; 99; 100]; []; [97; 98; 32; 101; 102]] !! file_path.

(** The default weights 0.7 and 0.3. *)
Definition weight_07 : spec_float := S754_finite false 6305039478318694 (-53).
Definition weight_03 : spec_float := S754_finite false 5404319552844595 (-54).

(** The exceptions of the arithmetic. *)
Definition arith_exn (e : exn) : Prop :=
  e = OverflowError \/ e = ZeroDivisionError.

(** ** Integer sums *)

Definition int_sum (l : list Z) : Z := foldr Z.add 0 l.

(** The dot product of two integer vectors, over their common length. *)
Definition int_dot (v1 v2 : list Z) : Z := int_sum (zip_with Z.mul v1 v2).

(** An arithmetic is exact on the [small] non-negative integers when sums,
    products and squares of their images [embed a] are the images of the
    integer results. *)
Record integer_exact {F : Type} (PF : PyFloat F) (embed : Z -> F)
    (small : Z -> Prop) : Prop := {
  ie_small_le : forall a b, 0 <= a <= b -> small b -> small a;
  ie_zero : fzero = embed 0;
  ie_of_int : forall a, 0 <= a -> small a -> float_of_int a = Ok (embed a);
  ie_add : forall a b, 0 <= a -> 0 <= b -> small (a + b) ->
           fadd (embed a) (embed b) = embed (a + b);
  ie_mul : forall a b, 0 <= a -> 0 <= b -> small a -> small b ->
           small (a * b) -> fmul (embed a) (embed b) = embed (a * b);
  ie_pow2 : forall a, 0 <= a -> small (a * a) ->
            fpow2 (embed a) = Ok (embed (a * a));
  ie_mul_comm : forall x y : F, fmul x y = fmul y x
}.

Section CosineOfSums.

Context {F : Type} {PF : PyFloat F}.
Variable embed : Z -> F.

(** The last lines of [calculate_cosine_similarity], from the dot product
    [d] and the two sums of squares [s1] and [s2]. *)
Definition cosine_of_sums (d s1 s2 : Z) : result F :=
  let magnitude1 := fpow_half (embed s1) in
  let magnitude2 := fpow_half (embed s2) in
  if feq_zero magnitude1 || feq_zero magnitude2 then Ok fzero
  else fdiv (embed d) (fmul magnitude1 magnitude2).

End CosineOfSums.

(** What [list(set(words))] guarantees whatever the order: the distinct
    elements of [words], each once. *)
Definition list_set_contract (list_set : list str -> list str) : Prop :=
  forall words, NoDup (list_set words)
                /\ forall word, word ∈ list_set words <-> word ∈ words.

(** ** Further definitions *)

(** A positive double that is at least 1, plus infinity included: the
    mantissa [m] and the exponent [e] satisfy [1 <= m * 2^e]. *)
Definition at_least_one (x : spec_float) : Prop :=
  match x with
  | S754_finite false m e => 2 ^ (- e) <= Zpos m
  | S754_infinity false => True
  | _ => False
  end.

(** [i] is the first position of [w] in the vocabulary. *)
Definition first_at {K : Type} (vocabulary : list K) (w : K) (i : nat) : Prop :=
  vocabulary !! i = Some w /\ forall j, (j < i)%nat -> vocabulary !! j <> Some w.

(** ** The command line *)

(** [format(x, '.<digits>f')] for a positive number of digits: the decimal
    expansion of the double, correctly rounded to [digits] places, ties to
    even; the sign is kept also when the digits are all zero. *)
Fixpoint uint_digits (d : Decimal.uint) : str :=
  match d with
  | Decimal.Nil => []
  | Decimal.D0 d => 48 :: uint_digits d
  | Decimal.D1 d => 49 :: uint_digits d
  | Decimal.D2 d => 50 :: uint_digits d
  | Decimal.D3 d => 51 :: uint_digits d
  | Decimal.D4 d => 52 :: uint_digits d
  | Decimal.D5 d => 53 :: uint_digits d
  | Decimal.D6 d => 54 :: uint_digits d
  | Decimal.D7 d => 55 :: uint_digits d
  | Decimal.D8 d => 56 :: uint_digits d
  | Decimal.D9 d => 57 :: uint_digits d
  end.

(** The decimal digits of a natural number, ["0"] for zero. *)
Definition decimal (n : Z) : str := uint_digits (N.to_uint (Z.to_N n)).

(** [m * 2^e * 10^digits] rounded to the nearest integer, ties to even. *)
Definition scaled_round (digits : nat) (m : positive) (e : Z) : Z :=
  let numerator := Zpos m * 10 ^ Z.of_nat digits * 2 ^ Z.max e 0 in
  let denominator := 2 ^ Z.max (- e) 0 in
  let q := numerator / denominator in
  let r := numerator mod denominator in
  if (denominator <? 2 * r) || ((denominator =? 2 * r) && Z.odd q)
  then q + 1 else q.

Definition sign_prefix (negative : bool) : str :=
  if negative then [45] else [].

Definition format_fixed (digits : nat) (x : spec_float) : str :=
  match x with
  | S754_nan => [110; 97; 110]
  | S754_infinity s => sign_prefix s ++ [105; 110; 102]
  | S754_zero s => sign_prefix s ++ [48; 46] ++ repeat 48 digits
  | S754_finite s m e =>
      let q := scaled_round digits m e in
      let fraction := decimal (q mod 10 ^ Z.of_nat digits) in
      sign_prefix s ++ decimal (q / 10 ^ Z.of_nat digits) ++ [46]
        ++ repeat 48 (digits - length fraction) ++ fraction
  end.

(** What [main] catches: an exception of [calculate_similarity], an
    [OSError] of [open(output_file_path, 'w')], or the [UnicodeEncodeError]
    of writing text that UTF-8 cannot encode. *)
Inductive failure : Type :=
| Raised (e : exn)
| OSError
| UnicodeEncodeError.

(** What [main] prints. *)
Inductive message : Type :=
| PrintUsage                        (* "参数输入错误！正确用法: ..." *)
| PrintLine (l : line spec_float)   (* a line of [calculate_similarity] *)
| PrintResult (x : spec_float)      (* "文本查重结果：{x:.2f}" *)
| PrintFailure (e : failure).       (* "处理过程出错: {str(e)}" *)

(** A run of the program: what it printed, its exit status, and the text
    of every file afterwards. *)
Record process (File : Type) : Type := Process {
  console : list message;
  exit_status : Z;
  disk_after : File -> option str
}.

Arguments Process {File} console exit_status disk_after.
Arguments console {File} p.
Arguments exit_status {File} p.
Arguments disk_after {File} p.

(** UTF-8 encodes every code point but the surrogates. *)
Definition is_surrogate (c : char) : bool := (55296 <=? c) && (c <=? 57343).

Definition encodable (text : str) : bool :=
  forallb (fun c => negb (is_surrogate c)) text.

(** [output_file.write] for each text in turn: a text is encoded when it is
    written, so the first one that cannot be encoded raises and the file
    keeps what was written before it. *)
Fixpoint write_lines (lines : list str) : str * option failure :=
  match lines with
  | [] => ([], None)
  | text :: lines =>
      if encodable text
      then let (written, error) := write_lines lines in (text ++ written, error)
      else ([], Some UnicodeEncodeError)
  end.

(** The three lines of the report. *)
Definition report_lines (source_file_path check_file_path : str)
    (similarity_score : spec_float) : list str :=
  [ [28304; 25991; 20214; 58; 32] ++ source_file_path ++ [10];
    [24453; 26816; 27979; 25991; 20214; 58; 32] ++ check_file_path ++ [10];
    [26597; 37325; 30456; 20284; 24230; 58; 32]
      ++ format_fixed 4 similarity_score ++ [10] ].

Section Main.

Variable unicode_alnum : char -> bool.
Variable jieba_lcut : str -> list str.
Variable list_set : list str -> list str.

(** The files: [resolve] gives the file a path names, [can_open_w] tells
    whether [open(path, 'w')] succeeds, and the disk holds the text of each
    existing file. *)
Context {File : Type} `{EqDecision File}.
Variable resolve : str -> File.
Variable can_open_w : str -> bool.

Definition main (argv : list str) (disk : File -> option str) : process File :=
  if negb (length argv =? 4)%nat
  then Process [PrintUsage] 1 disk
  else
    let source_file_path := nth 1 argv [] in
    let check_file_path := nth 2 argv [] in
    let output_file_path := nth 3 argv [] in
    let run :=
      calculate_similarity (PF := binary64) unicode_alnum jieba_lcut list_set
        (fun file_path => disk (resolve file_path))
        source_file_path check_file_path weight_07 weight_03 in
    match outcome run with
    | Raise e =>
        Process (map PrintLine (stdout run) ++ [PrintFailure (Raised e)]) 1 disk
    | Ok similarity_score =>
        let printed :=
          map PrintLine (stdout run) ++ [PrintResult similarity_score] in
        if can_open_w output_file_path
        then
          let (written, error) :=
            write_lines (report_lines source_file_path check_file_path
                           similarity_score) in
          let disk' := fun file =>
            if decide (file = resolve output_file_path)
            then Some written else disk file in
          match error with
          | None => Process printed 0 disk'
          | Some e => Process (printed ++ [PrintFailure e]) 1 disk'
          end
        else Process (printed ++ [PrintFailure OSError]) 1 disk
    end.

End Main.

(** A disk of two files, named ["a"] and ["b"], holding ["ab cd"] and
    ["ab ef"]. *)
Definition sample_disk (path : str) : option str :=
  if decide (path = [97]) then Some [97; 98; 32; 99; 100]
  else if decide (path = [98]) then Some [97; 98; 32; 101; 102]
  else None.

(** * Normalisation *)

Section TextLemmas.

Variable ua : char -> bool.

Lemma space_is_space : is_space space = true.
Proof. reflexivity. Qed.

Lemma space_not_punct : is_punct ua space = false.
Proof. unfold is_punct. rewrite space_is_space, orb_true_r. reflexivity. Qed.

Lemma no_punct_Forall text :
  no_punct ua text = true <-> Forall (fun c => is_punct ua c = false) text.
Proof.
  unfold no_punct. rewrite forallb_forall, List.Forall_forall.
  split; intros H c Hc; specialize (H c Hc);
    destruct (is_punct ua c); simpl in *; congruence.
Qed.

Lemma remove_punct_no_punct text :
  Forall (fun c => is_punct ua c = false) (remove_punct ua text).
Proof.
  apply List.Forall_forall. intros c Hc.
  apply filter_In in Hc. destruct Hc as [_ Hc].
  unfold is_punct. rewrite Hc. reflexivity.
Qed.

Lemma remove_punct_id text :
  Forall (fun c => is_punct ua c = false) text -> remove_punct ua text = text.
Proof.
  induction 1 as [|c text Hc _ IH]; simpl; [reflexivity|].
  unfold is_punct in Hc. apply negb_false_iff in Hc. rewrite Hc.
  f_equal. exact IH.
Qed.

Lemma sub_spaces_Forall (P : char -> Prop) b text :
  P space -> Forall P text -> Forall P (sub_spaces b text).
Proof.
  intros Hs H. revert b.
  induction H as [|c text Hc _ IH]; intros b; simpl; [constructor|].
  destruct (is_space c); [destruct b|]; auto.
Qed.

Lemma spaced_sub_spaces b text : spaced b (sub_spaces b text) = true.
Proof.
  revert b. induction text as [|c text IH]; intros b; simpl; [reflexivity|].
  destruct (is_space c) eqn:Hc.
  - destruct b; [apply IH|].
    change (spaced true (sub_spaces true text) = true). apply IH.
  - simpl. rewrite Hc. apply IH.
Qed.

Lemma sub_spaces_id b text : spaced b text = true -> sub_spaces b text = text.
Proof.
  revert b. induction text as [|c text IH]; intros b; simpl; [reflexivity|].
  destruct (is_space c).
  - intros H. apply andb_true_iff in H. destruct H as [H H3].
    apply andb_true_iff in H. destruct H as [H1 H2].
    apply Z.eqb_eq in H1. apply negb_true_iff in H2. subst b c.
    f_equal. apply IH, H3.
  - intros H. f_equal. apply IH, H.
Qed.

(** Weakening: what is well spaced after a space is well spaced anywhere. *)
Lemma spaced_weaken b text : spaced true text = true -> spaced b text = true.
Proof.
  destruct text as [|c text]; simpl; [reflexivity|].
  destruct (is_space c); [|auto].
  rewrite andb_false_r. simpl. discriminate.
Qed.

Lemma spaced_head b text :
  spaced b text = true -> head_not_space text = true ->
  spaced true text = true.
Proof.
  destruct text as [|c text]; simpl; [reflexivity|].
  destruct (is_space c); simpl; [discriminate|auto].
Qed.

Lemma spaced_app_l b s t : spaced b (s ++ t) = true -> spaced b s = true.
Proof.
  revert b. induction s as [|c s IH]; intros b; simpl; [reflexivity|].
  destruct (is_space c).
  - intros H. apply andb_true_iff in H. destruct H as [H H3].
    rewrite H. simpl. eapply IH, H3.
  - apply IH.
Qed.

Lemma spaced_app_r b s t :
  spaced b (s ++ t) = true -> exists b', spaced b' t = true.
Proof.
  revert b. induction s as [|c s IH]; intros b; simpl; [eauto|].
  destruct (is_space c).
  - intros H. apply andb_true_iff in H. destruct H as [_ H3].
    eapply IH, H3.
  - apply IH.
Qed.

(** [lstrip] drops a prefix of whitespace. *)
Lemma lstrip_split text :
  exists k, text = k ++ lstrip text /\ Forall (fun c => is_space c = true) k.
Proof.
  induction text as [|c text [k [IH1 IH2]]]; simpl.
  - exists []. split; [reflexivity|constructor].
  - destruct (is_space c) eqn:Hc.
    + exists (c :: k). split; [simpl; f_equal; exact IH1|].
      constructor; assumption.
    + exists []. split; [reflexivity|constructor].
Qed.

Lemma head_not_space_lstrip text : head_not_space (lstrip text) = true.
Proof.
  induction text as [|c text IH]; simpl; [reflexivity|].
  destruct (is_space c) eqn:Hc; [exact IH|].
  simpl. rewrite Hc. reflexivity.
Qed.

Lemma lstrip_id text : head_not_space text = true -> lstrip text = text.
Proof.
  destruct text as [|c text]; simpl; [reflexivity|].
  destruct (is_space c); simpl; [discriminate|reflexivity].
Qed.

Lemma lstrip_snoc text c :
  is_space c = false -> lstrip (text ++ [c]) = lstrip text ++ [c].
Proof.
  intros Hc. induction text as [|d text IH]; simpl.
  - rewrite Hc. reflexivity.
  - destruct (is_space d); [exact IH|reflexivity].
Qed.

Lemma rstrip_split text :
  exists k, text = rstrip text ++ k /\ Forall (fun c => is_space c = true) k.
Proof.
  unfold rstrip. destruct (lstrip_split (rev text)) as [k [H1 H2]].
  exists (rev k). split.
  - rewrite <- rev_app_distr, <- H1, rev_involutive. reflexivity.
  - apply Forall_rev. exact H2.
Qed.

Lemma head_not_space_rstrip text :
  head_not_space text = true -> head_not_space (rstrip text) = true.
Proof.
  destruct text as [|c text]; [reflexivity|].
  simpl. intros Hc. apply negb_true_iff in Hc.
  unfold rstrip. simpl. rewrite lstrip_snoc by exact Hc.
  rewrite rev_app_distr. simpl. rewrite Hc. reflexivity.
Qed.

Lemma rstrip_id text : head_not_space (rev text) = true -> rstrip text = text.
Proof.
  intros H. unfold rstrip. rewrite lstrip_id by exact H.
  apply rev_involutive.
Qed.

Lemma strip_id text : trimmed text = true -> strip text = text.
Proof.
  unfold trimmed, strip. intros H. apply andb_true_iff in H.
  destruct H as [H1 H2]. rewrite (lstrip_id _ H1). apply rstrip_id, H2.
Qed.

Lemma trimmed_strip text : trimmed (strip text) = true.
Proof.
  unfold trimmed, strip. apply andb_true_iff. split.
  - apply head_not_space_rstrip, head_not_space_lstrip.
  - unfold rstrip. rewrite rev_involutive. apply head_not_space_lstrip.
Qed.

Lemma strip_Forall (P : char -> Prop) text :
  Forall P text -> Forall P (strip text).
Proof.
  intros H. unfold strip.
  destruct (lstrip_split text) as [k [H1 _]].
  destruct (rstrip_split (lstrip text)) as [k' [H2 _]].
  rewrite H1, H2 in H.
  apply Forall_app in H. destruct H as [_ H].
  apply Forall_app in H. destruct H as [H _]. exact H.
Qed.

Lemma spaced_strip b text :
  spaced b text = true -> spaced true (strip text) = true.
Proof.
  intros H. unfold strip.
  destruct (lstrip_split text) as [k [H1 _]].
  destruct (rstrip_split (lstrip text)) as [k' [H2 _]].
  rewrite H1 in H. apply spaced_app_r in H. destruct H as [b' H].
  rewrite H2 in H. apply spaced_app_l in H.
  eapply spaced_head; [exact H|].
  apply head_not_space_rstrip, head_not_space_lstrip.
Qed.

(** The text after the first two statements is normalised. *)
Lemma clean_no_punct text :
  Forall (fun c => is_punct ua c = false) (clean ua text).
Proof.
  unfold clean. apply strip_Forall, sub_spaces_Forall.
  - apply space_not_punct.
  - apply remove_punct_no_punct.
Qed.

Lemma clean_spaced text : spaced true (clean ua text) = true.
Proof. unfold clean. eapply spaced_strip, spaced_sub_spaces. Qed.

Lemma clean_trimmed text : trimmed (clean ua text) = true.
Proof. apply trimmed_strip. Qed.

Lemma clean_normalized text : normalized ua (clean ua text) = true.
Proof.
  unfold normalized. rewrite clean_trimmed.
  unfold single_spaced. rewrite (spaced_weaken _ _ (clean_spaced text)).
  rewrite (proj2 (no_punct_Forall _) (clean_no_punct text)). reflexivity.
Qed.

Lemma clean_id text : normalized ua text = true -> clean ua text = text.
Proof.
  unfold normalized, single_spaced. intros H.
  apply andb_true_iff in H. destruct H as [H H3].
  apply andb_true_iff in H. destruct H as [H1 H2].
  unfold clean. rewrite remove_punct_id by (apply no_punct_Forall, H1).
  rewrite sub_spaces_id by exact H2. apply strip_id, H3.
Qed.

Lemma preprocess_text_unfold text :
  preprocess_text ua text =
  if 800 <? Z.of_nat (length (clean ua text))
  then remove_stopwords (clean ua text) else clean ua text.
Proof. reflexivity. Qed.

Lemma remove_stopwords_no_stopword text :
  no_stopword (remove_stopwords text) = true.
Proof.
  apply forallb_forall. intros c Hc. apply filter_In in Hc. apply Hc.
Qed.

Lemma remove_stopwords_id text :
  no_stopword text = true -> remove_stopwords text = text.
Proof.
  unfold no_stopword, remove_stopwords.
  induction text as [|c text IH]; simpl; [reflexivity|].
  intros H. apply andb_true_iff in H. destruct H as [H1 H2].
  rewrite H1. f_equal. apply IH, H2.
Qed.

Lemma preprocess_text_no_punct text :
  Forall (fun c => is_punct ua c = false) (preprocess_text ua text).
Proof.
  rewrite preprocess_text_unfold.
  destruct (800 <? _); [|apply clean_no_punct].
  apply List.Forall_forall. intros c Hc. apply filter_In in Hc.
  destruct Hc as [Hc _].
  exact (proj1 (List.Forall_forall _ _) (clean_no_punct text) c Hc).
Qed.

End TextLemmas.

Section Normalizer.

Variable ua : char -> bool.

Lemma stopword_word c :
  is_stopword c = true -> is_word ua c = true /\ is_space c = false.
Proof.
  unfold is_stopword. intros H.
  apply existsb_exists in H. destruct H as [x [Hin Heq]].
  apply Z.eqb_eq in Heq. subst x. unfold stopwords in Hin. simpl in Hin.
  repeat (destruct Hin as [<-|Hin]; [split; reflexivity|]).
  contradiction.
Qed.

Lemma spaced_no_space b text :
  Forall (fun c => is_space c = false) text -> spaced b text = true.
Proof.
  intros H. revert b. induction H as [|c text Hc _ IH]; intros b; simpl.
  - reflexivity.
  - rewrite Hc. apply IH.
Qed.

Lemma head_not_space_no_space text :
  Forall (fun c => is_space c = false) text -> head_not_space text = true.
Proof. destruct 1 as [|c text Hc _]; simpl; [reflexivity|]. rewrite Hc. reflexivity. Qed.

(** A text made of stopwords is left alone by the first two statements. *)
Lemma clean_stopwords text :
  Forall (fun c => is_stopword c = true) text -> clean ua text = text.
Proof.
  intros H. apply clean_id. unfold normalized, single_spaced, trimmed.
  assert (Hs : Forall (fun c => is_space c = false) text).
  { eapply Forall_impl; [exact H|]. intros c Hc. apply (stopword_word c Hc). }
  rewrite (spaced_no_space _ _ Hs), (head_not_space_no_space _ Hs).
  rewrite (head_not_space_no_space _ (Forall_rev Hs)).
  rewrite (proj2 (no_punct_Forall ua text)); [reflexivity|].
  eapply Forall_impl; [exact H|]. intros c Hc. unfold is_punct.
  rewrite (proj1 (stopword_word c Hc)). reflexivity.
Qed.

Lemma remove_stopwords_all text :
  Forall (fun c => is_stopword c = true) text -> remove_stopwords text = [].
Proof.
  unfold remove_stopwords.
  induction 1 as [|c text Hc _ IH]; simpl; [reflexivity|].
  rewrite Hc. exact IH.
Qed.

Lemma no_stopword_Forall text :
  no_stopword text = true <-> (forall c, In c text -> is_stopword c = false).
Proof.
  unfold no_stopword. rewrite forallb_forall.
  split; intros H c Hc; specialize (H c Hc);
    destruct (is_stopword c); simpl in *; congruence.
Qed.

(** Whitespace in the output is ASCII spaces only. *)
Lemma spaced_only_spaces b text :
  spaced b text = true ->
  Forall (fun c => is_space c = true -> c = space) text.
Proof.
  revert b. induction text as [|c text IH]; intros b; simpl; [constructor|].
  destruct (is_space c) eqn:Hc.
  - intros H. apply andb_true_iff in H. destruct H as [H H3].
    apply andb_true_iff in H. destruct H as [H1 _]. apply Z.eqb_eq in H1.
    constructor; [auto|]. eapply IH, H3.
  - intros H. constructor; [congruence|]. eapply IH, H.
Qed.

Lemma preprocess_text_only_spaces text :
  Forall (fun c => is_space c = true -> c = space) (preprocess_text ua text).
Proof.
  pose proof (spaced_only_spaces _ _ (clean_spaced ua text)) as H.
  rewrite preprocess_text_unfold. destruct (800 <? _); [|exact H].
  apply List.Forall_forall. intros c Hc. apply filter_In in Hc.
  exact (proj1 (List.Forall_forall _ _) H c (proj1 Hc)).
Qed.

(** C1 (amended): the output of [preprocess_text] never contains a
    punctuation character, and its whitespace is ASCII spaces only; when
    the text left by punctuation removal, whitespace collapsing and
    trimming has at most 800 characters, the output has no run of
    whitespace longer than one space and no leading or trailing
    whitespace. *)
Theorem preprocess_text_invariant (text : str) :
  no_punct ua (preprocess_text ua text) = true
  /\ Forall (fun c => is_space c = true -> c = space) (preprocess_text ua text)
  /\ (Z.of_nat (length (clean ua text)) <= 800 ->
      single_spaced (preprocess_text ua text) = true
      /\ trimmed (preprocess_text ua text) = true).
Proof.
  split; [apply no_punct_Forall, preprocess_text_no_punct|].
  split; [apply preprocess_text_only_spaces|].
  intros Hlen. rewrite preprocess_text_unfold.
  apply Z.ltb_ge in Hlen. rewrite Hlen. split.
  - apply spaced_weaken, clean_spaced.
  - apply clean_trimmed.
Qed.


Lemma preprocess_text_fixed (text : str) :
  normalized ua text = true ->
  (800 < Z.of_nat (length text) -> no_stopword text = true) ->
  preprocess_text ua text = text.
Proof.
  intros Hn Hs. rewrite preprocess_text_unfold, (clean_id ua text Hn).
  destruct (800 <? _) eqn:Hlen; [|reflexivity].
  apply Z.ltb_lt in Hlen. apply remove_stopwords_id, Hs, Hlen.
Qed.

(** C9 (amended): a text with no punctuation, single spaces, no leading or
    trailing whitespace and, if longer than 800 characters, no stopword
    is a fixed point of [preprocess_text]; and
    [preprocess_text (preprocess_text t) = preprocess_text t] whenever
    the first output is such a text, in particular whenever the text left
    by the first two statements has at most 800 characters. *)
Theorem preprocess_text_idempotent :
  (forall text,
      normalized ua text = true ->
      (800 < Z.of_nat (length text) -> no_stopword text = true) ->
      preprocess_text ua text = text)
  /\ (forall text,
      normalized ua (preprocess_text ua text) = true ->
      preprocess_text ua (preprocess_text ua text) = preprocess_text ua text)
  /\ (forall text,
      Z.of_nat (length (clean ua text)) <= 800 ->
      preprocess_text ua (preprocess_text ua text) = preprocess_text ua text).
Proof.
  split; [exact preprocess_text_fixed|]. split.
  - intros text Hn. apply preprocess_text_fixed; [exact Hn|].
    intros Hlong. revert Hlong. rewrite preprocess_text_unfold.
    destruct (800 <? _) eqn:Hlen.
    + intros _. apply remove_stopwords_no_stopword.
    + apply Z.ltb_ge in Hlen. lia.
  - intros text Hlen. apply Z.ltb_ge in Hlen.
    rewrite (preprocess_text_unfold ua text), Hlen.
    apply preprocess_text_fixed; [apply clean_normalized|].
    apply Z.ltb_ge in Hlen. lia.
Qed.

End Normalizer.

(** C1, witness: a short text with punctuation and runs of whitespace. *)
Lemma preprocess_text_invariant_witness :
  single_spaced (preprocess_text no_other_alnum [32; 97; 33; 32; 10; 98; 9]) = true
  /\ trimmed (preprocess_text no_other_alnum [32; 97; 33; 32; 10; 98; 9]) = true.
Proof.
  apply (preprocess_text_invariant no_other_alnum [32; 97; 33; 32; 10; 98; 9]).
  vm_compute. discriminate.
Defined.

(** C1, counterexample: in [long_text] the stopword between two spaces is
    removed after the whitespace was collapsed, so the output holds two
    spaces in a row. *)
Lemma preprocess_text_run_counterexample :
  preprocess_text no_other_alnum long_text = repeat 95 800 ++ [32; 32; 95]
  /\ single_spaced (preprocess_text no_other_alnum long_text) = false.
Proof. split; vm_compute; reflexivity. Qed.


(** C9, witness: a short text. *)
Lemma preprocess_text_idempotent_witness :
  preprocess_text no_other_alnum
    (preprocess_text no_other_alnum [32; 97; 33; 32; 10; 98; 9])
  = preprocess_text no_other_alnum [32; 97; 33; 32; 10; 98; 9].
Proof.
  destruct (preprocess_text_idempotent no_other_alnum) as (_ & _ & H).
  apply H. vm_compute. discriminate.
Defined.

(** C9, counterexample: normalising the output for [long_text] again
    collapses the two spaces that the stopword removal left. *)
Lemma preprocess_text_twice_counterexample :
  preprocess_text no_other_alnum (preprocess_text no_other_alnum long_text)
  <> preprocess_text no_other_alnum long_text.
Proof. vm_compute. discriminate. Qed.


(** * Segmentation *)

Lemma strip_nonempty_nonempty word : strip_nonempty word = true -> word <> [].
Proof. intros H ->. discriminate. Qed.

Lemma sample_lcut_contract : jieba_contract sample_lcut.
Proof.
  intros text word c Hw Hc. unfold sample_lcut in Hw.
  apply in_map_iff in Hw. destruct Hw as [d [<- Hd]].
  destruct Hc as [<-|[]]. apply filter_In in Hd. destruct Hd as [Hd Hs].
  split; [exact Hd|]. apply negb_true_iff in Hs. congruence.
Qed.

Section Tokenizer.

Variable ua : char -> bool.
Variable jieba_lcut : str -> list str.
Hypothesis jieba_ok : jieba_contract jieba_lcut.

Lemma segment_text_empty : segment_text jieba_lcut [] = [].
Proof.
  unfold segment_text.
  assert (H : forall word, In word (jieba_lcut []) -> word = []).
  { intros [|c word] Hw; [reflexivity|].
    destruct (jieba_ok [] (c :: word) c Hw (or_introl eq_refl)) as [[] _]. }
  induction (jieba_lcut []) as [|w l IH]; [reflexivity|].
  simpl. rewrite (H w (or_introl eq_refl)). simpl.
  apply IH. intros word Hw. apply H. right. exact Hw.
Qed.


End Tokenizer.



(** * Vectors *)

(** The vector of the unit test: 测试 twice, 文本 once, 单元 never. *)
Example test_text_to_vector :
  text_to_vector [[27979; 35797]; [25991; 26412]; [27979; 35797]]
                 [[27979; 35797]; [25991; 26412]; [21333; 20803]]
  = Ok [2; 1; 0].
Proof. reflexivity. Qed.

Section VectorLemmas.

Context {K : Type} `{EqDecision K}.
Implicit Types (word w : K) (c items : list (K * Z)) (vocabulary words : list K).

Lemma counter_get_incr w c word :
  counter_get (counter_incr w c) word
  = counter_get c word + (if decide (w = word) then 1 else 0).
Proof.
  induction c as [|[k n] c IH]; simpl.
  - destruct (decide (w = word)); lia.
  - destruct (decide (k = w)) as [->|Hk]; simpl.
    + destruct (decide (w = word)); lia.
    + destruct (decide (k = word)) as [->|Hk'].
      * destruct (decide (w = word)); [congruence|lia].
      * exact IH.
Qed.

Lemma counter_incr_keys w c :
  (counter_incr w c).*1 = if decide (w ∈ c.*1) then c.*1 else c.*1 ++ [w].
Proof.
  induction c as [|[k n] c IH]; cbn [counter_incr].
  - rewrite decide_False by apply not_elem_of_nil. reflexivity.
  - rewrite !fmap_cons. cbn [fst]. destruct (decide (k = w)) as [->|Hk].
    + rewrite decide_True by apply list_elem_of_here. reflexivity.
    + rewrite fmap_cons, IH. cbn [fst].
      destruct (decide (w ∈ c.*1)) as [Hin|Hin].
      * rewrite decide_True by (apply list_elem_of_further, Hin). reflexivity.
      * rewrite decide_False; [reflexivity|].
        intros Hin'. apply elem_of_cons in Hin'.
        destruct Hin' as [->|Hin']; contradiction.
Qed.

Lemma counter_incr_NoDup w c : NoDup c.*1 -> NoDup (counter_incr w c).*1.
Proof.
  intros H. rewrite counter_incr_keys.
  destruct (decide (w ∈ c.*1)); [exact H|].
  apply NoDup_app. split; [exact H|]. split.
  - intros x Hx Hx'. apply list_elem_of_singleton in Hx'. subst x. contradiction.
  - apply NoDup_singleton.
Qed.

Lemma term_frequency_fold words c :
  let c' := fold_left (fun c word => counter_incr word c) words c in
  (NoDup c.*1 -> NoDup c'.*1)
  /\ forall word, counter_get c' word = counter_get c word + occurrences word words.
Proof.
  revert c. induction words as [|w words IH]; intros c; simpl.
  - split; [auto|]. intros word. lia.
  - destruct (IH (counter_incr w c)) as [IH1 IH2]. split.
    + intros H. apply IH1, counter_incr_NoDup, H.
    + intros word. rewrite IH2, counter_get_incr. lia.
Qed.

Lemma term_frequency_NoDup words : NoDup (calculate_term_frequency words).*1.
Proof. apply (term_frequency_fold words []). apply NoDup_nil_2. Qed.

Lemma term_frequency_get words word :
  counter_get (calculate_term_frequency words) word = occurrences word words.
Proof. apply (term_frequency_fold words []). Qed.

Lemma counter_get_absent c word : word ∉ c.*1 -> counter_get c word = 0.
Proof.
  induction c as [|[k n] c IH]; simpl; [reflexivity|].
  intros H. destruct (decide (k = word)) as [->|_].
  - exfalso. apply H. apply list_elem_of_here.
  - apply IH. intros H'. apply H. apply list_elem_of_further, H'.
Qed.

Lemma index_spec word vocabulary :
  word ∈ vocabulary ->
  exists idx, index word vocabulary = Ok idx /\ vocabulary !! idx = Some word.
Proof.
  induction vocabulary as [|k vocabulary IH]; intros H.
  - apply elem_of_nil in H. contradiction.
  - simpl. destruct (decide (k = word)) as [->|Hk].
    + exists O. split; reflexivity.
    + apply elem_of_cons in H. destruct H as [->|H]; [contradiction|].
      destruct (IH H) as [idx [H1 H2]]. rewrite H1. exists (S idx).
      split; [reflexivity|exact H2].
Qed.

Lemma vector_step_spec vocabulary vector word count :
  NoDup vocabulary -> length vector = length vocabulary ->
  exists vector',
    vector_step vocabulary vector (word, count) = Ok vector'
    /\ length vector' = length vocabulary
    /\ forall i w, vocabulary !! i = Some w ->
         vector' !! i = if decide (w = word) then Some count else vector !! i.
Proof.
  intros Hnd Hlen. unfold vector_step, contains.
  destruct (bool_decide (word ∈ vocabulary)) eqn:Hin.
  - apply bool_decide_eq_true in Hin.
    destruct (index_spec word vocabulary Hin) as [idx [H1 H2]].
    rewrite H1. simpl. unfold assign.
    pose proof (lookup_lt_Some _ _ _ H2) as Hlt.
    assert (Hb : (idx <? length vector)%nat = true)
      by (apply Nat.ltb_lt; lia).
    rewrite Hb. eexists. split; [reflexivity|]. split.
    + rewrite length_insert. exact Hlen.
    + intros i w Hi. destruct (decide (w = word)) as [->|Hw].
      * rewrite (NoDup_lookup _ _ _ _ Hnd Hi H2).
        apply list_lookup_insert_eq. lia.
      * apply list_lookup_insert_ne. intros ->. congruence.
  - apply bool_decide_eq_false in Hin.
    exists vector. split; [reflexivity|]. split; [exact Hlen|].
    intros i w Hi. destruct (decide (w = word)) as [->|_]; [|reflexivity].
    exfalso. apply Hin. eapply list_elem_of_lookup_2, Hi.
Qed.

Lemma vector_loop_spec vocabulary items vector :
  NoDup vocabulary -> NoDup items.*1 -> length vector = length vocabulary ->
  exists vector',
    vector_loop vocabulary items vector = Ok vector'
    /\ length vector' = length vocabulary
    /\ forall i w, vocabulary !! i = Some w ->
         vector' !! i =
         if decide (w ∈ items.*1) then Some (counter_get items w)
         else vector !! i.
Proof.
  intros Hnd. revert vector.
  induction items as [|[word count] items IH]; intros vector Hk Hlen.
  - exists vector. split; [reflexivity|]. split; [exact Hlen|].
    intros i w _. rewrite decide_False by apply not_elem_of_nil. reflexivity.
  - rewrite fmap_cons in Hk. cbn [fst] in Hk. apply NoDup_cons in Hk. destruct Hk as [Hword Hk].
    destruct (vector_step_spec vocabulary vector word count Hnd Hlen)
      as [v1 [Hstep [Hlen1 Hv1]]].
    destruct (IH v1 Hk Hlen1) as [v2 [Hloop [Hlen2 Hv2]]].
    exists v2. cbn [vector_loop]. rewrite Hstep. split; [exact Hloop|].
    split; [exact Hlen2|]. intros i w Hi.
    rewrite (Hv2 i w Hi), (Hv1 i w Hi), fmap_cons. cbn [fst counter_get].
    destruct (decide (word = w)) as [->|Hne].
    + rewrite (decide_False (P := w ∈ items.*1)) by exact Hword.
      rewrite (decide_True (P := w = w)) by reflexivity.
      rewrite decide_True by apply list_elem_of_here. reflexivity.
    + rewrite (decide_False (P := w = word)) by congruence.
      destruct (decide (w ∈ items.*1)) as [Hin|Hin].
      * rewrite decide_True by (apply list_elem_of_further, Hin). reflexivity.
      * rewrite decide_False; [reflexivity|].
        intros Hin'. apply elem_of_cons in Hin'.
        destruct Hin' as [->|Hin']; [congruence|contradiction].
Qed.

Lemma text_to_vector_spec words vocabulary :
  NoDup vocabulary ->
  exists vector,
    text_to_vector words vocabulary = Ok vector
    /\ length vector = length vocabulary
    /\ forall i w, vocabulary !! i = Some w ->
         vector !! i = Some (occurrences w words).
Proof.
  intros Hnd. unfold text_to_vector.
  destruct (vector_loop_spec vocabulary (calculate_term_frequency words)
              (replicate (length vocabulary) 0) Hnd
              (term_frequency_NoDup words) (length_replicate _ _))
    as [v [H1 [H2 H3]]].
  exists v. split; [exact H1|]. split; [exact H2|].
  intros i w Hi. rewrite (H3 i w Hi), <- term_frequency_get.
  destruct (decide (w ∈ (calculate_term_frequency words).*1)) as [_|Hout].
  - reflexivity.
  - rewrite (counter_get_absent _ _ Hout).
    apply lookup_replicate_2. eapply lookup_lt_Some, Hi.
Qed.

Lemma occurrences_filter vocabulary words w :
  w ∈ vocabulary ->
  occurrences w (List.filter (fun word => contains word vocabulary) words)
  = occurrences w words.
Proof.
  intros Hw. induction words as [|x words IH]; simpl; [reflexivity|].
  unfold contains at 1. destruct (bool_decide (x ∈ vocabulary)) eqn:Hx; simpl.
  - rewrite IH. reflexivity.
  - apply bool_decide_eq_false in Hx.
    destruct (decide (x = w)) as [->|_]; [contradiction|]. rewrite IH. lia.
Qed.

(** C6: for a vocabulary of distinct tokens, [text_to_vector] returns a
    vector as long as the vocabulary whose i-th entry is the number of
    occurrences in [words] of the i-th vocabulary token; it does not fail on
    tokens that are not in the vocabulary, and they change nothing. *)
Theorem text_to_vector_counts (words vocabulary : list K) :
  NoDup vocabulary ->
  exists vector,
    text_to_vector words vocabulary = Ok vector
    /\ length vector = length vocabulary
    /\ (forall i w, vocabulary !! i = Some w ->
         vector !! i = Some (occurrences w words))
    /\ text_to_vector
         (List.filter (fun word => contains word vocabulary) words) vocabulary
       = Ok vector.
Proof.
  intros Hnd.
  destruct (text_to_vector_spec words vocabulary Hnd) as [v [H1 [H2 H3]]].
  destruct (text_to_vector_spec
              (List.filter (fun word => contains word vocabulary) words)
              vocabulary Hnd) as [v' [H1' [H2' H3']]].
  exists v. repeat split; try assumption.
  rewrite H1'. f_equal. apply list_eq. intros i.
  destruct (vocabulary !! i) as [w|] eqn:Hi.
  - rewrite (H3 i w Hi), (H3' i w Hi). f_equal.
    apply occurrences_filter. eapply list_elem_of_lookup_2, Hi.
  - apply lookup_ge_None in Hi.
    rewrite (proj2 (lookup_ge_None v i)), (proj2 (lookup_ge_None v' i)) by lia.
    reflexivity.
Qed.

End VectorLemmas.

(** C6, witness: the words [a b a z] over the vocabulary [a b c]. *)
Lemma text_to_vector_counts_witness :
  exists vector,
    text_to_vector [[97]; [98]; [97]; [122]] [[97]; [98]; [99]] = Ok vector
    /\ length vector = length [[97]; [98]; [99]]
    /\ (forall i w, [[97]; [98]; [99]] !! i = Some w ->
         vector !! i = Some (occurrences w [[97]; [98]; [97]; [122]]))
    /\ text_to_vector
         (List.filter (fun word => contains word [[97]; [98]; [99]])
            [[97]; [98]; [97]; [122]])
         [[97]; [98]; [99]]
       = Ok vector.
Proof.
  apply (text_to_vector_counts [[97]; [98]; [97]; [122]] [[97]; [98]; [99]]).
  apply (bool_decide_unpack _). vm_compute. exact I.
Defined.

(** * The empty-document error *)

Lemma mapM_raise {A B : Type} (f : A -> result B) (l : list A) e :
  mapM f l = Raise e -> exists a, In a l /\ f a = Raise e.
Proof.
  induction l as [|a l IH]; simpl; [discriminate|].
  destruct (f a) as [b|e'] eqn:Hfa; simpl.
  - destruct (mapM f l) as [bs|e'']; simpl; [discriminate|].
    intros [= ->]. destruct (IH eq_refl) as [a' [H1 H2]]. eauto.
  - intros [= ->]. eauto.
Qed.

Lemma of_int_raise i e : B64.of_int i = Raise e -> arith_exn e.
Proof.
  unfold B64.of_int. destruct (B64.is_infinite _); [|discriminate].
  intros [= <-]. left. reflexivity.
Qed.

Lemma pow2_raise x e : B64.pow2 x = Raise e -> arith_exn e.
Proof.
  unfold B64.pow2. destruct (_ && _); [|discriminate].
  intros [= <-]. left. reflexivity.
Qed.

Lemma div_raise x y e : B64.div x y = Raise e -> arith_exn e.
Proof.
  unfold B64.div. destruct (SFeqb _ _); [|discriminate].
  intros [= <-]. right. reflexivity.
Qed.

Lemma truediv_raise a b e : B64.truediv a b = Raise e -> arith_exn e.
Proof.
  unfold B64.truediv. destruct (b =? 0).
  - intros [= <-]. right. reflexivity.
  - destruct (B64.is_infinite _); [|discriminate].
    intros [= <-]. left. reflexivity.
Qed.

Lemma cosine_raise vec1 vec2 e :
  calculate_cosine_similarity (PF := binary64) vec1 vec2 = Raise e ->
  arith_exn e.
Proof.
  unfold calculate_cosine_similarity. cbn [float_of_int fpow2 fdiv binary64].
  destruct (mapM B64.of_int vec1) as [f1|e1] eqn:H1; simpl.
  2:{ intros [= <-]. apply mapM_raise in H1. destruct H1 as [a [_ H1]].
      eapply of_int_raise, H1. }
  destruct (mapM B64.of_int vec2) as [f2|e2] eqn:H2; simpl.
  2:{ intros [= <-]. apply mapM_raise in H2. destruct H2 as [a [_ H2]].
      eapply of_int_raise, H2. }
  destruct (mapM B64.pow2 f1) as [s1|e1] eqn:H3; simpl.
  2:{ intros [= <-]. apply mapM_raise in H3. destruct H3 as [a [_ H3]].
      eapply pow2_raise, H3. }
  destruct (mapM B64.pow2 f2) as [s2|e2] eqn:H4; simpl.
  2:{ intros [= <-]. apply mapM_raise in H4. destruct H4 as [a [_ H4]].
      eapply pow2_raise, H4. }
  destruct (_ || _); [discriminate|]. apply div_raise.
Qed.

Lemma edit_raise text1 text2 e :
  calculate_edit_distance_similarity (PF := binary64) text1 text2 = Raise e ->
  arith_exn e.
Proof.
  unfold calculate_edit_distance_similarity. cbn [int_truediv binary64].
  destruct (_ =? 0); [discriminate|].
  destruct (B64.truediv _ _) as [q|e'] eqn:H; simpl; [discriminate|].
  intros [= <-]. eapply truediv_raise, H.
Qed.

Section VectorTotal.

Context {K : Type} `{EqDecision K}.

Lemma vector_loop_total (vocabulary : list K) items vector :
  length vector = length vocabulary ->
  exists vector', vector_loop vocabulary items vector = Ok vector'
                  /\ length vector' = length vocabulary.
Proof.
  revert vector. induction items as [|[word count] items IH]; intros vector Hlen.
  - exists vector. split; [reflexivity|exact Hlen].
  - cbn [vector_loop vector_step]. unfold contains.
    destruct (bool_decide (word ∈ vocabulary)) eqn:Hin.
    + apply bool_decide_eq_true in Hin.
      destruct (index_spec word vocabulary Hin) as [idx [H1 H2]].
      rewrite H1. simpl. unfold assign.
      pose proof (lookup_lt_Some _ _ _ H2) as Hlt.
      assert (Hb : (idx <? length vector)%nat = true)
        by (apply Nat.ltb_lt; lia).
      rewrite Hb. simpl. apply IH. rewrite length_insert. exact Hlen.
    + simpl. apply IH, Hlen.
Qed.

(** [text_to_vector] returns for every vocabulary, distinct or not. *)
Lemma text_to_vector_total (words vocabulary : list K) :
  exists vector, text_to_vector words vocabulary = Ok vector
                 /\ length vector = length vocabulary.
Proof. apply vector_loop_total, length_replicate. Qed.

End VectorTotal.

Section EmptyInput.

Variable ua : char -> bool.
Variable jieba_lcut : str -> list str.
Variable list_set : list str -> list str.
Context {Path : Type}.
Variable files : Path -> option str.

Lemma is_empty_nil text : is_empty text = true <-> text = [].
Proof. destruct text; simpl; split; congruence. Qed.


End EmptyInput.


(** * Binary64 arithmetic on integers *)

Section ShiftRight.

Lemma iter_pos_iter {A : Type} (f : A -> A) (p : positive) (x : A) :
  SpecFloat.iter_pos f p x = Pos.iter f x p.
Proof.
  revert x. induction p as [p IH|p IH|]; intros x; simpl.
  - rewrite !IH, <- !Pos.iter_swap. reflexivity.
  - rewrite !IH. reflexivity.
  - reflexivity.
Qed.

Lemma shr_m_shr_1 mrs : 0 <= shr_m mrs -> shr_m (shr_1 mrs) = shr_m mrs / 2.
Proof.
  destruct mrs as [m r s]. simpl. intros Hm.
  destruct m as [|[p|p|]|p]; simpl; try reflexivity; try lia.
  - rewrite Pos2Z.inj_xI. apply Z.div_unique with 1; lia.
  - rewrite Pos2Z.inj_xO. apply Z.div_unique with 0; lia.
Qed.

Lemma shr_m_iter p mrs :
  0 <= shr_m mrs ->
  shr_m (Pos.iter shr_1 mrs p) = shr_m mrs / 2 ^ Zpos p.
Proof.
  intros Hm. induction p as [|p IH] using Pos.peano_ind.
  - simpl. rewrite shr_m_shr_1 by exact Hm. reflexivity.
  - rewrite Pos.iter_succ, shr_m_shr_1.
    + rewrite IH, Pos2Z.inj_succ, Z.pow_succ_r by lia.
      rewrite Z.div_div by lia. f_equal. lia.
    + rewrite IH. apply Z.div_pos; lia.
Qed.

(** Shifting out zeros keeps the record exact. *)
Lemma shr_1_exact p :
  shr_1 (Build_shr_record (Zpos p~0) false false)
  = Build_shr_record (Zpos p) false false.
Proof. reflexivity. Qed.

Lemma iter_shr_1_exact (m : positive) (p : positive) :
  Pos.iter shr_1 (Build_shr_record (Zpos (Pos.iter xO m p)) false false) p
  = Build_shr_record (Zpos m) false false.
Proof.
  induction p as [|p IH] using Pos.peano_ind.
  - reflexivity.
  - rewrite Pos.iter_succ, <- Pos.iter_swap, Pos.iter_succ.
    rewrite shr_1_exact. exact IH.
Qed.

Lemma iter_xO_Z (m p : positive) : Zpos (Pos.iter xO m p) = Zpos m * 2 ^ Zpos p.
Proof.
  induction p as [|p IH] using Pos.peano_ind.
  - simpl. lia.
  - rewrite Pos.iter_succ, (Pos2Z.inj_xO (Pos.iter xO m p)), IH, Pos2Z.inj_succ, Z.pow_succ_r by lia.
    lia.
Qed.

Lemma digits2_pos_bounds (m : positive) :
  2 ^ (Zpos (digits2_pos m) - 1) <= Zpos m < 2 ^ Zpos (digits2_pos m).
Proof.
  assert (Hstep : forall d, 0 < d -> 2 ^ Z.succ d = 2 * 2 ^ d
                                   /\ 2 ^ (Z.succ d - 1) = 2 * 2 ^ (d - 1)).
  { intros d Hd. split; [apply Z.pow_succ_r; lia|].
    replace (Z.succ d - 1) with (Z.succ (d - 1)) by lia.
    apply Z.pow_succ_r. lia. }
  induction m as [m IH|m IH|]; simpl digits2_pos.
  - destruct (Hstep (Zpos (digits2_pos m)) (Pos2Z.is_pos _)) as [H1 H2].
    rewrite Pos2Z.inj_succ, (Pos2Z.inj_xI m), H1, H2. lia.
  - destruct (Hstep (Zpos (digits2_pos m)) (Pos2Z.is_pos _)) as [H1 H2].
    rewrite Pos2Z.inj_succ, (Pos2Z.inj_xO m), H1, H2. lia.
  - simpl. lia.
Qed.

(** The number of digits is determined by the two bounds. *)
Lemma digits2_pos_unique (m : positive) (d : Z) :
  2 ^ (d - 1) <= Zpos m < 2 ^ d -> Zpos (digits2_pos m) = d.
Proof.
  intros [Hlo Hhi]. pose proof (digits2_pos_bounds m) as [Hlo' Hhi'].
  assert (Hd : 0 < d).
  { destruct (Z.lt_ge_cases 0 d) as [|Hd]; [assumption|].
    rewrite (Z.pow_neg_r 2 (d - 1)) in Hlo by lia.
    destruct (Z.eq_dec d 0) as [->|]; [simpl in Hhi; lia|].
    rewrite Z.pow_neg_r in Hhi by lia. lia. }
  destruct (Z.lt_trichotomy (Zpos (digits2_pos m)) d) as [H|[H|H]];
    [|exact H|].
  - assert (2 ^ Zpos (digits2_pos m) <= 2 ^ (d - 1))
      by (apply Z.pow_le_mono_r; lia). lia.
  - assert (2 ^ d <= 2 ^ (Zpos (digits2_pos m) - 1))
      by (apply Z.pow_le_mono_r; lia). lia.
Qed.

Lemma digits2_pos_iter_xO (m p : positive) :
  Zpos (digits2_pos (Pos.iter xO m p)) = Zpos (digits2_pos m) + Zpos p.
Proof.
  apply digits2_pos_unique. rewrite iter_xO_Z.
  pose proof (digits2_pos_bounds m) as [Hlo Hhi].
  replace (Zpos (digits2_pos m) + Zpos p - 1)
    with ((Zpos (digits2_pos m) - 1) + Zpos p) by lia.
  rewrite !Z.pow_add_r by lia.
  assert (0 < 2 ^ Zpos p) by (apply Z.pow_pos_nonneg; lia). nia.
Qed.

End ShiftRight.

Section Rounding64.

Lemma digits2_pos_shift (M m' : positive) (k : Z) :
  0 <= k -> Zpos M = Zpos m' * 2 ^ k ->
  Zpos (digits2_pos M) = Zpos (digits2_pos m') + k.
Proof.
  intros Hk HM. apply digits2_pos_unique. rewrite HM.
  pose proof (digits2_pos_bounds m') as [Hlo Hhi].
  replace (Zpos (digits2_pos m') + k - 1)
    with ((Zpos (digits2_pos m') - 1) + k) by lia.
  rewrite !Z.pow_add_r by lia.
  assert (0 < 2 ^ k) by (apply Z.pow_pos_nonneg; lia). nia.
Qed.

(** A mantissa of 53 digits followed by [k] zeros is shifted back to its 53
    digits, exactly. *)
Lemma shr_fexp_exact (M m' : positive) (k e : Z) :
  Zpos (digits2_pos m') = 53 -> 0 <= k -> -1074 <= e + k ->
  Zpos M = Zpos m' * 2 ^ k ->
  shr_fexp B64.prec B64.emax (Zpos M) e loc_Exact
  = (Build_shr_record (Zpos m') false false, e + k).
Proof.
  intros Hd Hk He HM. unfold shr_fexp. cbn [Zdigits2 shr_record_of_loc].
  rewrite (digits2_pos_shift M m' k Hk HM), Hd.
  replace (fexp B64.prec B64.emax (53 + k + e) - e) with k
    by (unfold fexp, emin, B64.prec, B64.emax; lia).
  unfold shr. destruct k as [|p|p]; [| |lia].
  - rewrite Z.add_0_r. rewrite Z.pow_0_r, Z.mul_1_r in HM.
    injection HM as ->. reflexivity.
  - rewrite <- iter_xO_Z in HM. injection HM as ->.
    rewrite iter_pos_iter, iter_shr_1_exact. reflexivity.
Qed.

Lemma binary_round_aux_exact (s : bool) (M m' : positive) (k e : Z) :
  Zpos (digits2_pos m') = 53 -> 0 <= k -> -1074 <= e + k <= 971 ->
  Zpos M = Zpos m' * 2 ^ k ->
  binary_round_aux B64.prec B64.emax s (Zpos M) e loc_Exact
  = S754_finite s m' (e + k).
Proof.
  intros Hd Hk He HM. unfold binary_round_aux.
  rewrite (shr_fexp_exact M m' k e Hd Hk (proj1 He) HM).
  cbn [shr_m loc_of_shr_record round_nearest_even].
  rewrite (shr_fexp_exact m' m' 0 (e + k) Hd (Z.le_refl 0)) by lia.
  cbn [shr_m]. rewrite Z.add_0_r.
  replace (e + k <=? B64.emax - B64.prec) with true; [reflexivity|].
  symmetry. apply Z.leb_le. unfold B64.emax, B64.prec. lia.
Qed.

(** [binary_round] first aligns a short mantissa to 53 digits. *)
Lemma binary_round_exact_short (s : bool) (M m' : positive) (k e : Z) :
  Zpos (digits2_pos m') = 53 -> 0 <= k -> -1074 <= e - k <= 971 ->
  Zpos m' = Zpos M * 2 ^ k ->
  binary_round B64.prec B64.emax s M e = S754_finite s m' (e - k).
Proof.
  intros Hd Hk He HM. unfold binary_round.
  pose proof (digits2_pos_shift m' M k Hk HM) as HdM. rewrite Hd in HdM.
  replace (fexp B64.prec B64.emax (Zpos (digits2_pos M) + e)) with (e - k)
    by (unfold fexp, emin, B64.prec, B64.emax; lia).
  unfold shl_align. replace (e - k - e) with (- k) by lia.
  destruct k as [|p|p]; [| |lia].
  - change (- 0) with 0. cbv iota beta.
    rewrite Z.pow_0_r, Z.mul_1_r in HM. injection HM as ->.
    rewrite (binary_round_aux_exact s M M 0 e Hd (Z.le_refl 0)) by lia.
    f_equal; lia.
  - change (- Zpos p) with (Zneg p). cbv iota beta.
    rewrite <- iter_xO_Z in HM. injection HM as ->.
    change (PosDef.Pos.iter xO M p) with (Pos.iter xO M p).
    rewrite (binary_round_aux_exact s _ _ 0 (e - Zpos p) Hd (Z.le_refl 0))
      by lia.
    f_equal; lia.
Qed.

Lemma binary_round_exact_long (s : bool) (M m' : positive) (k e : Z) :
  Zpos (digits2_pos m') = 53 -> 0 <= k -> -1074 <= e + k <= 971 ->
  Zpos M = Zpos m' * 2 ^ k ->
  binary_round B64.prec B64.emax s M e = S754_finite s m' (e + k).
Proof.
  intros Hd Hk He HM. unfold binary_round.
  pose proof (digits2_pos_shift M m' k Hk HM) as HdM. rewrite Hd in HdM.
  replace (fexp B64.prec B64.emax (Zpos (digits2_pos M) + e)) with (e + k)
    by (unfold fexp, emin, B64.prec, B64.emax; lia).
  unfold shl_align. replace (e + k - e) with k by lia.
  destruct k as [|p|p]; [| |lia];
    apply (binary_round_aux_exact s M m' _ e Hd); assumption.
Qed.

End Rounding64.

Section IntegerFloats.

Lemma digits2_pos_le_53 (p : positive) :
  Zpos p < 2 ^ 53 -> Zpos (digits2_pos p) <= 53.
Proof.
  intros Hp. pose proof (digits2_pos_bounds p) as [Hlo _].
  destruct (Z.le_gt_cases (Zpos (digits2_pos p)) 53) as [|Hgt]; [assumption|].
  assert (2 ^ 53 <= 2 ^ (Zpos (digits2_pos p) - 1))
    by (apply Z.pow_le_mono_r; lia).
  lia.
Qed.

(** The double of a positive integer below [2^53]: its digits, aligned to
    53 places. *)
Lemma round_int_small (p : positive) :
  Zpos p < 2 ^ 53 ->
  exists m,
    B64.round_int (Zpos p) = S754_finite false m (Zpos (digits2_pos p) - 53)
    /\ Zpos m = Zpos p * 2 ^ (53 - Zpos (digits2_pos p))
    /\ Zpos (digits2_pos m) = 53.
Proof.
  intros Hp. pose proof (digits2_pos_le_53 p Hp) as Hd.
  set (d := Zpos (digits2_pos p)) in *.
  assert (Hpos : 0 < Zpos p * 2 ^ (53 - d)).
  { apply Z.mul_pos_pos; [lia|]. apply Z.pow_pos_nonneg; lia. }
  destruct (Zpos p * 2 ^ (53 - d)) as [|m|m] eqn:Hm; try lia.
  exists m. symmetry in Hm.
  assert (Hdm : Zpos (digits2_pos m) = 53).
  { rewrite (digits2_pos_shift m p (53 - d)) by (lia || exact Hm).
    fold d. lia. }
  split; [|split; [reflexivity|exact Hdm]].
  unfold B64.round_int, binary_normalize.
  rewrite (binary_round_exact_short false p m (53 - d) 0 Hdm);
    [f_equal; lia|lia|lia|exact Hm].
Qed.

Lemma shl_align_fst (m : positive) (e e' : Z) :
  e' <= e -> Zpos (fst (shl_align m e e')) = Zpos m * 2 ^ (e - e').
Proof.
  intros He. unfold shl_align.
  destruct (e' - e) as [|p|p] eqn:Hd; try lia; cbn [fst].
  - replace (e - e') with 0 by lia. lia.
  - change (PosDef.Pos.iter xO m p) with (Pos.iter xO m p).
    rewrite iter_xO_Z. f_equal. f_equal. lia.
Qed.

Lemma pow2_split (x y : Z) : 0 <= x -> 0 <= y -> 2 ^ x * 2 ^ y = 2 ^ (x + y).
Proof. intros. symmetry. apply Z.pow_add_r; assumption. Qed.

Lemma round_int_add_pos (a b : positive) :
  Zpos a + Zpos b < 2 ^ 53 ->
  SFadd B64.prec B64.emax (B64.round_int (Zpos a)) (B64.round_int (Zpos b))
  = B64.round_int (Zpos a + Zpos b).
Proof.
  intros Hab.
  destruct (round_int_small a) as [ma [-> [Hma _]]]; [lia|].
  destruct (round_int_small b) as [mb [-> [Hmb _]]]; [lia|].
  change (Zpos a + Zpos b) with (Zpos (a + b)) in *.
  destruct (round_int_small (a + b) Hab) as [mn [-> [Hmn Hdn]]].
  pose proof (digits2_pos_le_53 a ltac:(lia)) as Hda.
  pose proof (digits2_pos_le_53 b ltac:(lia)) as Hdb.
  pose proof (digits2_pos_le_53 (a + b) Hab) as Hdab.
  pose proof (digits2_pos_bounds a) as [Hloa Hhia].
  pose proof (digits2_pos_bounds b) as [Hlob Hhib].
  pose proof (digits2_pos_bounds (a + b)) as [Hlon Hhin].
  set (da := Zpos (digits2_pos a)) in *.
  set (db := Zpos (digits2_pos b)) in *.
  set (dn := Zpos (digits2_pos (a + b))) in *.
  assert (Hdan : da <= dn).
  { destruct (Z.le_gt_cases da dn) as [|Hgt]; [assumption|].
    assert (2 ^ dn <= 2 ^ (da - 1)) by (apply Z.pow_le_mono_r; lia).
    rewrite Pos2Z.inj_add in Hhin. lia. }
  assert (Hdbn : db <= dn).
  { destruct (Z.le_gt_cases db dn) as [|Hgt]; [assumption|].
    assert (2 ^ dn <= 2 ^ (db - 1)) by (apply Z.pow_le_mono_r; lia).
    rewrite Pos2Z.inj_add in Hhin. lia. }
  unfold SFadd. cbn [cond_Zopp].
  set (ez := Z.min (da - 53) (db - 53)).
  rewrite (shl_align_fst ma (da - 53) ez), (shl_align_fst mb (db - 53) ez)
    by (unfold ez; lia).
  rewrite Hma, Hmb, <- !Z.mul_assoc, !pow2_split by (unfold ez; lia).
  replace (53 - da + (da - 53 - ez)) with (- ez) by lia.
  replace (53 - db + (db - 53 - ez)) with (- ez) by lia.
  rewrite <- Z.mul_add_distr_r.
  assert (Hpos : 0 < (Zpos a + Zpos b) * 2 ^ (- ez)).
  { apply Z.mul_pos_pos; [lia|]. apply Z.pow_pos_nonneg; unfold ez; lia. }
  destruct ((Zpos a + Zpos b) * 2 ^ (- ez)) as [|M|M] eqn:HM; try lia.
  unfold binary_normalize.
  rewrite (binary_round_exact_long false M mn (dn - 53 - ez) ez Hdn);
    [|unfold ez; lia|unfold ez; lia|].
  - f_equal. lia.
  - rewrite <- HM, Hmn, <- Z.mul_assoc, pow2_split by (unfold ez; lia).
    rewrite Pos2Z.inj_add. f_equal. f_equal. lia.
Qed.

Lemma round_int_zero : B64.round_int 0 = S754_zero false.
Proof. reflexivity. Qed.

(** The sum of two non-negative integers in binary64 is exact as long as it
    stays below [2^53]. *)
Lemma round_int_add (a b : Z) :
  0 <= a -> 0 <= b -> a + b < 2 ^ 53 ->
  SFadd B64.prec B64.emax (B64.round_int a) (B64.round_int b)
  = B64.round_int (a + b).
Proof.
  intros Ha Hb Hab. destruct a as [|a|a]; [| |lia].
  - rewrite Z.add_0_l, round_int_zero. destruct b as [|b|b]; [reflexivity| |lia].
    destruct (round_int_small b) as [mb [-> _]]; [lia|]. reflexivity.
  - destruct b as [|b|b]; [| |lia].
    + rewrite Z.add_0_r, round_int_zero.
      destruct (round_int_small a) as [ma [-> _]]; [lia|]. reflexivity.
    + apply round_int_add_pos, Hab.
Qed.

Lemma round_int_mul_pos (a b : positive) :
  Zpos a * Zpos b < 2 ^ 53 ->
  SFmul B64.prec B64.emax (B64.round_int (Zpos a)) (B64.round_int (Zpos b))
  = B64.round_int (Zpos a * Zpos b).
Proof.
  intros Hab.
  assert (Ha : Zpos a < 2 ^ 53).
  { assert (Zpos a * 1 <= Zpos a * Zpos b)
      by (apply Z.mul_le_mono_nonneg_l; lia). lia. }
  assert (Hb : Zpos b < 2 ^ 53).
  { assert (1 * Zpos b <= Zpos a * Zpos b)
      by (apply Z.mul_le_mono_nonneg_r; lia). lia. }
  destruct (round_int_small a Ha) as [ma [-> [Hma _]]].
  destruct (round_int_small b Hb) as [mb [-> [Hmb _]]].
  change (Zpos a * Zpos b) with (Zpos (a * b)) in *.
  destruct (round_int_small (a * b) Hab) as [mn [-> [Hmn Hdn]]].
  pose proof (digits2_pos_le_53 a Ha) as Hda.
  pose proof (digits2_pos_le_53 b Hb) as Hdb.
  pose proof (digits2_pos_le_53 (a * b) Hab) as Hdab.
  pose proof (digits2_pos_bounds a) as [Hloa Hhia].
  pose proof (digits2_pos_bounds b) as [Hlob Hhib].
  pose proof (digits2_pos_bounds (a * b)) as [Hlon Hhin].
  set (da := Zpos (digits2_pos a)) in *.
  set (db := Zpos (digits2_pos b)) in *.
  set (dn := Zpos (digits2_pos (a * b))) in *.
  assert (Hdn' : da + db - 1 <= dn).
  { destruct (Z.le_gt_cases (da + db - 1) dn) as [|Hgt]; [assumption|].
    assert (H1 : 2 ^ dn <= 2 ^ (da + db - 2)) by (apply Z.pow_le_mono_r; lia).
    replace (da + db - 2) with ((da - 1) + (db - 1)) in H1 by lia.
    rewrite Z.pow_add_r in H1 by lia.
    rewrite Pos2Z.inj_mul in Hhin.
    assert (2 ^ (da - 1) * 2 ^ (db - 1) <= Zpos a * Zpos b)
      by (apply Z.mul_le_mono_nonneg; lia || (apply Z.pow_nonneg; lia)).
    lia. }
  unfold SFmul. cbn [xorb].
  rewrite (binary_round_aux_exact false (ma * mb) mn (53 + dn - da - db)
             (da - 53 + (db - 53)) Hdn); [|lia|lia|].
  - f_equal. lia.
  - rewrite Pos2Z.inj_mul, Hma, Hmb, Hmn, Pos2Z.inj_mul.
    replace (Zpos a * 2 ^ (53 - da) * (Zpos b * 2 ^ (53 - db)))
      with (Zpos a * Zpos b * (2 ^ (53 - da) * 2 ^ (53 - db))) by ring.
    rewrite <- (Z.mul_assoc _ (2 ^ (53 - dn))), !pow2_split by lia.
    f_equal. f_equal. lia.
Qed.

(** The product of two non-negative integers in binary64 is exact as long
    as it stays below [2^53]. *)
Lemma round_int_mul (a b : Z) :
  0 <= a < 2 ^ 53 -> 0 <= b < 2 ^ 53 -> a * b < 2 ^ 53 ->
  SFmul B64.prec B64.emax (B64.round_int a) (B64.round_int b)
  = B64.round_int (a * b).
Proof.
  intros Ha Hb Hab. destruct a as [|a|a]; [| |lia].
  - rewrite Z.mul_0_l, round_int_zero. destruct b as [|b|b]; [reflexivity| |lia].
    destruct (round_int_small b) as [mb [-> _]]; [lia|]. reflexivity.
  - destruct b as [|b|b]; [| |lia].
    + rewrite Z.mul_0_r, round_int_zero.
      destruct (round_int_small a) as [ma [-> _]]; [lia|]. reflexivity.
    + apply round_int_mul_pos, Hab.
Qed.

Lemma round_int_finite (a : Z) :
  0 <= a < 2 ^ 53 -> B64.is_infinite (B64.round_int a) = false
                     /\ B64.is_finite (B64.round_int a) = true.
Proof.
  intros [Ha Hb]. destruct a as [|a|a]; [split; reflexivity| |lia].
  destruct (round_int_small a Hb) as [m [-> _]]. split; reflexivity.
Qed.

End IntegerFloats.

Section UnitInterval.

Lemma shr_spec (mrs : shr_record) (e n : Z) :
  0 <= shr_m mrs ->
  exists mrs',
    shr mrs e n = (mrs', e + Z.max n 0)
    /\ shr_m mrs' = shr_m mrs / 2 ^ Z.max n 0.
Proof.
  intros Hm. unfold shr. destruct n as [|p|p]; eexists.
  - rewrite Z.add_0_r. split; [reflexivity|]. rewrite Z.div_1_r. reflexivity.
  - rewrite Z.max_l by lia. split; [reflexivity|].
    rewrite iter_pos_iter, shr_m_iter by exact Hm. reflexivity.
  - rewrite Z.max_r, Z.add_0_r by lia. split; [reflexivity|].
    rewrite Z.div_1_r. reflexivity.
Qed.

Lemma shr_m_record_of_loc (m : Z) (l : location) :
  shr_m (shr_record_of_loc m l) = m.
Proof. destruct l as [|[]]; reflexivity. Qed.

Lemma Zdigits2_le (m k : Z) : 0 <= k -> 0 <= m < 2 ^ k -> Zdigits2 m <= k.
Proof.
  intros Hk [Hm Hlt]. destruct m as [|p|p]; simpl; [lia| |lia].
  pose proof (digits2_pos_bounds p) as [Hlo _].
  destruct (Z.le_gt_cases (Zpos (digits2_pos p)) k) as [|Hgt]; [assumption|].
  assert (2 ^ k <= 2 ^ (Zpos (digits2_pos p) - 1))
    by (apply Z.pow_le_mono_r; lia).
  lia.
Qed.

Lemma round_nearest_even_bounds (m : Z) (l : location) :
  m <= round_nearest_even m l <= m + 1.
Proof. destruct l as [|[]]; simpl; try lia. destruct (Z.even m); lia. Qed.

Lemma div_pow2_lt (m a b : Z) :
  0 <= a -> 0 <= b -> 0 <= m < 2 ^ (a + b) -> 0 <= m / 2 ^ a < 2 ^ b.
Proof.
  intros Ha Hb [Hm Hlt]. assert (0 < 2 ^ a) by (apply Z.pow_pos_nonneg; lia).
  split; [apply Z.div_pos; lia|].
  apply Z.div_lt_upper_bound; [lia|]. rewrite <- Z.pow_add_r by lia. exact Hlt.
Qed.

Lemma div_pow2_le (m a b : Z) :
  0 <= a -> 0 <= b -> 0 <= m <= 2 ^ (a + b) -> 0 <= m / 2 ^ a <= 2 ^ b.
Proof.
  intros Ha Hb [Hm Hle]. assert (0 < 2 ^ a) by (apply Z.pow_pos_nonneg; lia).
  split; [apply Z.div_pos; lia|].
  apply Z.div_le_upper_bound; [lia|]. rewrite <- Z.pow_add_r by lia. exact Hle.
Qed.

(** Rounding a value below 1 gives a double between 0 and 1. *)
Lemma binary_round_aux_unit (M e : Z) (l : location) :
  e <= -52 -> 0 <= M < 2 ^ (- e) ->
  B64.in_unit (binary_round_aux B64.prec B64.emax false M e l).
Proof.
  intros He HM. unfold binary_round_aux, shr_fexp.
  set (n1 := fexp B64.prec B64.emax (Zdigits2 M + e) - e).
  destruct (shr_spec (shr_record_of_loc M l) e n1) as [mrs1 [-> Hm1]];
    [rewrite shr_m_record_of_loc; lia|].
  rewrite shr_m_record_of_loc in Hm1.
  set (e1 := e + Z.max n1 0).
  pose proof (Zdigits2_le M (- e) ltac:(lia) HM) as HdM.
  assert (He1 : e <= e1 <= -52).
  { unfold e1, n1, fexp, emin, B64.prec, B64.emax. lia. }
  assert (Hb1 : 0 <= shr_m mrs1 < 2 ^ (- e1)).
  { rewrite Hm1. apply div_pow2_lt; [lia|lia|].
    replace (Z.max n1 0 + - e1) with (- e) by (unfold e1; lia). exact HM. }
  pose proof (round_nearest_even_bounds (shr_m mrs1) (loc_of_shr_record mrs1))
    as Hr.
  set (m1 := round_nearest_even (shr_m mrs1) (loc_of_shr_record mrs1)) in *.
  set (n2 := fexp B64.prec B64.emax (Zdigits2 m1 + e1) - e1).
  destruct (shr_spec (shr_record_of_loc m1 loc_Exact) e1 n2) as [mrs2 [-> Hm2]];
    [simpl; lia|].
  cbn [shr_record_of_loc shr_m] in Hm2.
  set (e2 := e1 + Z.max n2 0).
  assert (Hd1 : Zdigits2 m1 <= - e1 + 1).
  { apply Zdigits2_le; [lia|]. rewrite Z.pow_add_r, Z.pow_1_r by lia. lia. }
  assert (He2 : e1 <= e2 <= -52).
  { unfold e2, n2, fexp, emin, B64.prec, B64.emax. lia. }
  assert (Hb2 : 0 <= shr_m mrs2 <= 2 ^ (- e2)).
  { rewrite Hm2. apply div_pow2_le; [lia|lia|].
    replace (Z.max n2 0 + - e2) with (- e1) by (unfold e2; lia). lia. }
  destruct (shr_m mrs2) as [|m|m]; [exact I| |lia].
  replace (e2 <=? B64.emax - B64.prec) with true
    by (symmetry; apply Z.leb_le; unfold B64.emax, B64.prec; lia).
  simpl. lia.
Qed.

Lemma in_unit_bounds (x : spec_float) :
  B64.in_unit x -> SFleb B64.zero x = true /\ SFleb x B64.one = true.
Proof.
  destruct x as [[]|[]| |[] m e]; simpl; try contradiction.
  - intros _. split; reflexivity.
  - intros [He Hm]. split; [reflexivity|].
    unfold SFleb, SFcompare, B64.one.
    destruct (Z.compare_spec e (-52)) as [->|Hlt|Hgt]; [|reflexivity|lia].
    change (2 ^ (- -52)) with (Zpos 4503599627370496) in Hm.
    rewrite Pos.compare_cont_spec. unfold Pos.switch_Eq.
    destruct (Pos.compare_spec m 4503599627370496) as [_|_|Hgt];
      [reflexivity|reflexivity|lia].
Qed.

Lemma div_eucl_div_mod (a b : Z) : Z.div_eucl a b = (a / b, a mod b).
Proof. unfold Z.div, Z.modulo. destruct (Z.div_eucl a b). reflexivity. Qed.

(** The quotient of two positive integers, the smaller over the larger. *)
Lemma truediv_unit (d m : positive) :
  Zpos d < Zpos m ->
  exists q, B64.truediv (Zpos d) (Zpos m) = Ok q /\ B64.in_unit q.
Proof.
  intros Hdm. unfold B64.truediv. cbn [Z.eqb B64.wide].
  assert (Hq : B64.in_unit
                 (SFdiv B64.prec B64.emax (S754_finite false d 0)
                    (S754_finite false m 0))).
  { unfold SFdiv, SFdiv_core_binary. cbn [xorb Zdigits2].
    pose proof (digits2_pos_bounds d) as [Hlod Hhid].
    pose proof (digits2_pos_bounds m) as [Hlom Hhim].
    set (dd := Zpos (digits2_pos d)) in *.
    set (dm := Zpos (digits2_pos m)) in *.
    assert (Hdd : dd <= dm).
    { destruct (Z.le_gt_cases dd dm) as [|Hgt]; [assumption|].
      assert (2 ^ dm <= 2 ^ (dd - 1)) by (apply Z.pow_le_mono_r; lia). lia. }
    set (e' := Z.min (fexp B64.prec B64.emax (dd + 0 - (dm + 0))) (0 - 0)).
    assert (He' : e' <= -53)
      by (unfold e', fexp, emin, B64.prec, B64.emax; lia).
    replace (0 - 0 - e') with (- e') by lia.
    destruct (- e') as [|s|s] eqn:Hs; try lia.
    rewrite div_eucl_div_mod, Z.shiftl_mul_pow2 by lia.
    apply binary_round_aux_unit; [lia|]. rewrite Hs.
    assert (0 < 2 ^ Zpos s) by (apply Z.pow_pos_nonneg; lia).
    split; [apply Z.div_pos; nia|].
    apply Z.div_lt_upper_bound; [lia|]. nia. }
  destruct (SFdiv _ _ _ _) as [[]|[]| |[] q e]; simpl in Hq; try contradiction;
    eexists; (split; [reflexivity|]); simpl; auto.
Qed.

Lemma truediv_zero (m : positive) : B64.truediv 0 (Zpos m) = Ok B64.zero.
Proof. reflexivity. Qed.

Lemma truediv_same (m : positive) : B64.truediv (Zpos m) (Zpos m) = Ok B64.one.
Proof.
  unfold B64.truediv. cbn [Z.eqb B64.wide].
  assert (Hq : SFdiv B64.prec B64.emax (S754_finite false m 0)
                 (S754_finite false m 0) = B64.one).
  { unfold SFdiv, SFdiv_core_binary. cbn [xorb Zdigits2].
    rewrite (Z.sub_diag (Zpos (digits2_pos m) + 0)).
    change (Z.min (fexp B64.prec B64.emax 0) (0 - 0)) with (-53).
    change (0 - 0 - -53) with 53. cbv iota.
    rewrite div_eucl_div_mod, Z.shiftl_mul_pow2 by lia.
    rewrite (Z.mul_comm (Zpos m)), Z.div_mul, Z.mod_mul by lia.
    replace (new_location (Zpos m) 0) with loc_Exact
      by (unfold new_location; destruct (Z.even (Zpos m)); reflexivity).
    reflexivity. }
  rewrite Hq. reflexivity.
Qed.

Lemma sub_one_unit (x : spec_float) :
  B64.in_unit x -> B64.in_unit (SFsub B64.prec B64.emax B64.one x).
Proof.
  destruct x as [[]|[]| |[] m e]; simpl; try contradiction.
  - intros _. change (2 ^ 52) with 4503599627370496. lia.
  - intros [He Hm]. fold B64.one. unfold SFsub, B64.one. cbn [cond_Zopp].
    rewrite Z.min_r by lia.
    rewrite (shl_align_fst 4503599627370496 (-52) e He).
    rewrite (shl_align_fst m e e (Z.le_refl e)).
    rewrite Z.sub_diag, Z.pow_0_r, Z.mul_1_r.
    change (Zpos 4503599627370496) with (2 ^ 52).
    rewrite pow2_split by lia. replace (52 + (-52 - e)) with (- e) by lia.
    destruct (2 ^ (- e) - Zpos m) as [|D|D] eqn:HD; [exact I| |lia].
    unfold binary_normalize, binary_round.
    set (e' := fexp B64.prec B64.emax (Zpos (digits2_pos D) + e)).
    pose proof (shl_align_fst D e e') as Hfst.
    unfold shl_align in *.
    destruct (e' - e) as [|j|j] eqn:Hj; cbn [fst] in Hfst.
    + apply binary_round_aux_unit; lia.
    + apply binary_round_aux_unit; lia.
    + assert (He' : e' <= e) by lia. specialize (Hfst He').
      apply binary_round_aux_unit; [lia|]. rewrite Hfst.
      split; [lia|].
      replace (- e') with (- e + (e - e')) by lia.
      rewrite Z.pow_add_r by lia.
      apply Z.mul_lt_mono_pos_r; [apply Z.pow_pos_nonneg; lia|lia].
Qed.

End UnitInterval.

(** * Edit-distance similarity *)

Section LevenshteinLemmas.

Context {A : Type} `{EqDecision A}.
Implicit Types s t : list A.

Lemma levenshtein_nil_l t : levenshtein_distance [] t = length t.
Proof. reflexivity. Qed.

Lemma levenshtein_nil_r s : levenshtein_distance s [] = length s.
Proof. destruct s; reflexivity. Qed.

Lemma levenshtein_cons a s b t :
  levenshtein_distance (a :: s) (b :: t)
  = min3 (S (levenshtein_distance s (b :: t)))
         (S (levenshtein_distance (a :: s) t))
         ((if decide (a = b) then O else 1%nat) + levenshtein_distance s t).
Proof. reflexivity. Qed.

Lemma levenshtein_refl s : levenshtein_distance s s = O.
Proof.
  induction s as [|a s IH]; [reflexivity|].
  rewrite levenshtein_cons, IH. unfold min3.
  destruct (decide (a = a)); [|congruence]. lia.
Qed.

Lemma levenshtein_le_max s t :
  (levenshtein_distance s t <= Nat.max (length s) (length t))%nat.
Proof.
  revert t. induction s as [|a s IH]; intros t.
  - rewrite levenshtein_nil_l. simpl. lia.
  - destruct t as [|b t].
    + rewrite levenshtein_nil_r. simpl. lia.
    + rewrite levenshtein_cons. unfold min3. specialize (IH t). simpl length.
      destruct (decide (a = b)); lia.
Qed.

Lemma levenshtein_sym s t : levenshtein_distance s t = levenshtein_distance t s.
Proof.
  revert t. induction s as [|a s IHs]; intros t.
  - rewrite levenshtein_nil_l, levenshtein_nil_r. reflexivity.
  - induction t as [|b t IHt].
    + rewrite levenshtein_nil_l, levenshtein_nil_r. reflexivity.
    + rewrite !levenshtein_cons, IHt, (IHs (b :: t)), (IHs t). unfold min3.
      destruct (decide (a = b)), (decide (b = a)); try congruence; lia.
Qed.

End LevenshteinLemmas.

Section EditSimilarity.

Lemma truediv_zero_pos (m : Z) : 0 < m -> B64.truediv 0 m = Ok B64.zero.
Proof. destruct m; try lia. intros _. apply truediv_zero. Qed.

Lemma truediv_same_pos (m : Z) : 0 < m -> B64.truediv m m = Ok B64.one.
Proof. destruct m; try lia. intros _. apply truediv_same. Qed.

Lemma truediv_in_unit (d m : Z) :
  0 <= d <= m -> 0 < m ->
  exists q, B64.truediv d m = Ok q /\ B64.in_unit q.
Proof.
  intros [Hd Hdm] Hm. destruct m as [|m|m]; try lia.
  destruct d as [|d|d]; try lia.
  - exists B64.zero. split; [apply truediv_zero|exact I].
  - destruct (Z.eq_dec (Zpos d) (Zpos m)) as [[= ->]|Hne].
    + exists B64.one. split; [apply truediv_same|].
      simpl. change (2 ^ 52) with 4503599627370496. lia.
    + apply truediv_unit. lia.
Qed.

Lemma max_length_zero (text1 text2 : str) :
  Z.max (Z.of_nat (length text1)) (Z.of_nat (length text2)) = 0
  <-> text1 = [] /\ text2 = [].
Proof.
  split.
  - intros H. split; apply length_zero_iff_nil; lia.
  - intros [-> ->]. reflexivity.
Qed.

(** C4: [calculate_edit_distance_similarity] returns 1.0 for two empty
    strings and otherwise [1 - distance / max_length], the quotient being
    the correctly rounded double; the result always lies between 0.0 and
    1.0; it is 1.0 for two equal strings and 0.0 for the empty string
    against a non-empty one. *)
Theorem edit_distance_similarity_spec (text1 text2 : str) :
  let edit_distance := Z.of_nat (levenshtein_distance text1 text2) in
  let max_length :=
    Z.max (Z.of_nat (length text1)) (Z.of_nat (length text2)) in
  let similarity :=
    calculate_edit_distance_similarity (PF := binary64) text1 text2 in
  (text1 = [] /\ text2 = [] -> similarity = Ok B64.one)
  /\ (~ (text1 = [] /\ text2 = []) ->
      exists q, B64.truediv edit_distance max_length = Ok q
                /\ similarity = Ok (SFsub B64.prec B64.emax B64.one q))
  /\ (exists r, similarity = Ok r
                /\ SFleb B64.zero r = true /\ SFleb r B64.one = true)
  /\ (text1 = text2 -> similarity = Ok B64.one)
  /\ (text1 = [] -> text2 <> [] -> similarity = Ok B64.zero).
Proof.
  intros edit_distance max_length similarity.
  assert (Hnonempty : ~ (text1 = [] /\ text2 = []) ->
            exists q, B64.truediv edit_distance max_length = Ok q
                      /\ B64.in_unit q
                      /\ similarity = Ok (SFsub B64.prec B64.emax B64.one q)).
  { intros Hne. rewrite <- max_length_zero in Hne. fold max_length in Hne.
    assert (Hd : 0 <= edit_distance <= max_length).
    { pose proof (levenshtein_le_max text1 text2). unfold edit_distance, max_length.
      lia. }
    destruct (truediv_in_unit edit_distance max_length Hd) as [q [Hq Hu]];
      [lia|].
    exists q. split; [exact Hq|]. split; [exact Hu|].
    unfold similarity, calculate_edit_distance_similarity.
    fold edit_distance max_length. cbn [int_truediv fsub fone binary64].
    apply Z.eqb_neq in Hne. rewrite Hne, Hq. reflexivity. }
  assert (Hempty : text1 = [] /\ text2 = [] -> similarity = Ok B64.one).
  { intros [-> ->]. reflexivity. }
  split; [exact Hempty|]. split.
  { intros Hne. destruct (Hnonempty Hne) as [q [Hq [_ Hs]]]. eauto. }
  split.
  { destruct text1 as [|c1 text1'] eqn:E1; [destruct text2 as [|c2 text2'] eqn:E2|].
    - exists B64.one. split; [apply Hempty; auto|]. split; reflexivity.
    - destruct Hnonempty as [q [_ [Hu ->]]]; [intros [_ [=]]|].
      eexists. split; [reflexivity|]. apply in_unit_bounds, sub_one_unit, Hu.
    - destruct Hnonempty as [q [_ [Hu ->]]]; [intros [[=] _]|].
      eexists. split; [reflexivity|]. apply in_unit_bounds, sub_one_unit, Hu. }
  split.
  - intros <-. unfold similarity, calculate_edit_distance_similarity.
    rewrite levenshtein_refl, Z.max_id. cbn [int_truediv fsub fone binary64].
    destruct (Z.of_nat (length text1) =? 0) eqn:E; [reflexivity|].
    apply Z.eqb_neq in E.
    rewrite truediv_zero_pos by lia. reflexivity.
  - intros -> Hne. unfold similarity, calculate_edit_distance_similarity.
    rewrite levenshtein_nil_l. cbn [length int_truediv fsub fone binary64].
    rewrite Z.max_r by lia.
    assert (Hlen : 0 < Z.of_nat (length text2)).
    { destruct text2; [contradiction|]. cbn [length]. lia. }
    assert (Hlen' : (Z.of_nat (length text2) =? 0) = false)
      by (apply Z.eqb_neq; lia).
    rewrite Hlen', truediv_same_pos by exact Hlen. reflexivity.
Qed.

End EditSimilarity.

(** C4, witness: a string against itself, and the empty string against a
    non-empty one. *)
Lemma edit_distance_similarity_spec_witness :
  calculate_edit_distance_similarity (PF := binary64) [97; 98] [97; 98]
  = Ok B64.one
  /\ calculate_edit_distance_similarity (PF := binary64) [] [97; 98]
     = Ok B64.zero.
Proof.
  split.
  - destruct (edit_distance_similarity_spec [97; 98] [97; 98])
      as (_ & _ & _ & H & _). apply H. reflexivity.
  - destruct (edit_distance_similarity_spec [] [97; 98])
      as (_ & _ & _ & _ & H). apply H; [reflexivity|discriminate].
Defined.

(** The unit tests of the edit-distance similarity: 测试文本 against 测试文档
    gives 0.75, ["abc"] against ["def"] gives 0.0. *)
Example test_edit_distance_similarity :
  calculate_edit_distance_similarity (PF := binary64)
    [27979; 35797; 25991; 26412] [27979; 35797; 25991; 26723]
  = Ok (S754_finite false 6755399441055744 (-53))
  /\ calculate_edit_distance_similarity (PF := binary64)
       [97; 98; 99] [100; 101; 102] = Ok B64.zero.
Proof. split; vm_compute; reflexivity. Qed.

(** * Cosine similarity *)

Section IntegerSums.

Lemma int_sum_nonneg (l : list Z) : Forall (Z.le 0) l -> 0 <= int_sum l.
Proof. induction 1 as [|x l Hx _ IH]; simpl; lia. Qed.

Lemma zip_with_mul_nonneg (v1 v2 : list Z) :
  Forall (Z.le 0) v1 -> Forall (Z.le 0) v2 ->
  Forall (Z.le 0) (zip_with Z.mul v1 v2).
Proof.
  intros H1. revert v2. induction H1 as [|x v1 Hx _ IH]; intros v2 H2.
  - constructor.
  - destruct H2 as [|y v2 Hy H2]; simpl; constructor; [nia|apply IH, H2].
Qed.

Lemma int_dot_nonneg (v1 v2 : list Z) :
  Forall (Z.le 0) v1 -> Forall (Z.le 0) v2 -> 0 <= int_dot v1 v2.
Proof. intros. apply int_sum_nonneg, zip_with_mul_nonneg; assumption. Qed.

Lemma int_dot_cons x v1 y v2 :
  int_dot (x :: v1) (y :: v2) = x * y + int_dot v1 v2.
Proof. reflexivity. Qed.

Lemma int_dot_self_nonneg (v : list Z) : 0 <= int_dot v v.
Proof.
  induction v as [|x v IH]; [reflexivity|]. rewrite int_dot_cons. nia.
Qed.

Lemma int_dot_comm (v1 v2 : list Z) : int_dot v1 v2 = int_dot v2 v1.
Proof.
  revert v2. induction v1 as [|x v1 IH]; intros [|y v2]; try reflexivity.
  rewrite !int_dot_cons, IH. lia.
Qed.

(** The dot product is bounded by the product of the sums. *)
Lemma int_dot_le_sums (v1 v2 : list Z) :
  Forall (Z.le 0) v1 -> Forall (Z.le 0) v2 ->
  int_dot v1 v2 <= int_sum v1 * int_sum v2.
Proof.
  intros H1. revert v2. induction H1 as [|x v1 Hx H1 IH]; intros v2 H2.
  - change (int_dot [] v2) with 0. change (int_sum []) with 0. lia.
  - destruct H2 as [|y v2 Hy H2].
    + change (int_dot (x :: v1) []) with 0.
      change (int_sum []) with 0. lia.
    + rewrite int_dot_cons.
      change (int_sum (x :: v1)) with (x + int_sum v1).
      change (int_sum (y :: v2)) with (y + int_sum v2). specialize (IH v2 H2).
      pose proof (int_sum_nonneg v1 H1). pose proof (int_sum_nonneg v2 H2).
      nia.
Qed.

(** Cauchy-Schwarz on integer vectors. *)
Lemma cauchy_schwarz (v1 v2 : list Z) :
  int_dot v1 v2 * int_dot v1 v2 <= int_dot v1 v1 * int_dot v2 v2.
Proof.
  revert v2. induction v1 as [|x v1 IH]; intros v2.
  - change (int_dot [] v2) with 0. change (int_dot [] []) with 0. lia.
  - destruct v2 as [|y v2].
    + pose proof (int_dot_self_nonneg (x :: v1)).
      change (int_dot (x :: v1) []) with 0.
      change (int_dot [] []) with 0. lia.
    + rewrite !int_dot_cons. specialize (IH v2).
      pose proof (int_dot_self_nonneg v1) as H1.
      pose proof (int_dot_self_nonneg v2) as H2.
      set (d := int_dot v1 v2) in *. set (s1 := int_dot v1 v1) in *.
      set (s2 := int_dot v2 v2) in *.
      assert (Hxx : 0 <= x * x) by apply Z.square_nonneg.
      assert (Hyy : 0 <= y * y) by apply Z.square_nonneg.
      assert (Ha : 0 <= x * x * s2) by (apply Z.mul_nonneg_nonneg; lia).
      assert (Hb : 0 <= y * y * s1) by (apply Z.mul_nonneg_nonneg; lia).
      assert (Hmix : 2 * (x * y * d) <= x * x * s2 + y * y * s1).
      { destruct (Z.le_gt_cases (2 * (x * y * d)) (x * x * s2 + y * y * s1))
          as [|Hgt]; [assumption|exfalso].
        assert (Hsq : (x * x * s2 + y * y * s1) * (x * x * s2 + y * y * s1)
                      < (2 * (x * y * d)) * (2 * (x * y * d)))
          by (apply Z.mul_lt_mono_nonneg; lia).
        pose proof (Z.square_nonneg (x * x * s2 - y * y * s1)) as Hq.
        assert (Hd : (x * y) * (x * y) * (d * d)
                     <= (x * y) * (x * y) * (s1 * s2))
          by (apply Z.mul_le_mono_nonneg_l; [apply Z.square_nonneg|lia]).
        replace ((x * x * s2 - y * y * s1) * (x * x * s2 - y * y * s1))
          with ((x * x * s2 + y * y * s1) * (x * x * s2 + y * y * s1)
                - 4 * ((x * y) * (x * y) * (s1 * s2))) in Hq by ring.
        replace ((2 * (x * y * d)) * (2 * (x * y * d)))
          with (4 * ((x * y) * (x * y) * (d * d))) in Hsq by ring.
        lia. }
      replace ((x * y + d) * (x * y + d))
        with ((x * y) * (x * y) + 2 * (x * y * d) + d * d) by ring.
      replace ((x * x + s1) * (y * y + s2))
        with ((x * y) * (x * y) + (x * x * s2 + y * y * s1) + s1 * s2) by ring.
      lia.
Qed.

End IntegerSums.

Lemma mapM_Ok {A B : Type} (f : A -> result B) (g : A -> B) (l : list A) :
  Forall (fun a => f a = Ok (g a)) l -> mapM f l = Ok (map g l).
Proof.
  induction 1 as [|a l Ha _ IH]; [reflexivity|].
  cbn [mapM map]. rewrite Ha. cbn. rewrite IH. reflexivity.
Qed.

Lemma int_sum_ge (l : list Z) (x : Z) :
  Forall (Z.le 0) l -> In x l -> x <= int_sum l.
Proof.
  induction 1 as [|y l Hy Hl IH]; intros Hin; [contradiction|].
  pose proof (int_sum_nonneg l Hl).
  change (int_sum (y :: l)) with (y + int_sum l).
  destruct Hin as [->|Hin]; [lia|]. specialize (IH Hin). lia.
Qed.

Lemma zip_with_mul_self (v : list Z) :
  zip_with Z.mul v v = map (fun x => x * x) v.
Proof. induction v as [|x v IH]; [reflexivity|]. simpl. rewrite IH. reflexivity. Qed.

Section ExactIntegers.

Context {F : Type} {PF : PyFloat F}.
Variable embed : Z -> F.
Variable small : Z -> Prop.
Hypothesis IE : integer_exact PF embed small.

Lemma small_entries (l : list Z) :
  Forall (Z.le 0) l -> small (int_sum l) -> Forall small l.
Proof.
  intros Hl Hs. apply List.Forall_forall. intros x Hx.
  apply (ie_small_le _ _ _ IE x (int_sum l)); [|exact Hs].
  split; [exact (proj1 (List.Forall_forall _ _) Hl x Hx)|].
  apply int_sum_ge; assumption.
Qed.

Lemma sum_embed_acc (zs : list Z) (acc : Z) :
  0 <= acc -> Forall (Z.le 0) zs -> small (acc + int_sum zs) ->
  fold_left fadd (map embed zs) (embed acc) = embed (acc + int_sum zs).
Proof.
  intros Hacc Hzs. revert acc Hacc.
  induction Hzs as [|z zs Hz Hzs IH]; intros acc Hacc Hs.
  - simpl. rewrite Z.add_0_r. reflexivity.
  - change (int_sum (z :: zs)) with (z + int_sum zs) in *.
    pose proof (int_sum_nonneg zs Hzs) as Hnn.
    cbn [map fold_left]. rewrite (ie_add _ _ _ IE) by
      first [lia | apply (ie_small_le _ _ _ IE _ (acc + (z + int_sum zs)));
                   [lia|exact Hs]].
    rewrite IH by first [lia | rewrite <- Z.add_assoc; exact Hs].
    f_equal. lia.
Qed.

Lemma sum_embed (zs : list Z) :
  Forall (Z.le 0) zs -> small (int_sum zs) ->
  sum (map embed zs) = embed (int_sum zs).
Proof.
  intros Hzs Hs. unfold sum. rewrite (ie_zero _ _ _ IE).
  apply (sum_embed_acc zs 0); [lia|exact Hzs|exact Hs].
Qed.

Lemma products_embed (v1 v2 : list Z) :
  Forall (Z.le 0) v1 -> Forall (Z.le 0) v2 ->
  Forall small v1 -> Forall small v2 ->
  Forall small (zip_with Z.mul v1 v2) ->
  map (fun xy => fmul (fst xy) (snd xy)) (combine (map embed v1) (map embed v2))
  = map embed (zip_with Z.mul v1 v2).
Proof.
  intros H1. revert v2. induction H1 as [|x v1 Hx H1 IH]; intros v2 H2 S1 S2 S12.
  - reflexivity.
  - destruct H2 as [|y v2 Hy H2]; [reflexivity|].
    apply Forall_cons in S1 as [Sx S1]. apply Forall_cons in S2 as [Sy S2].
    cbn [zip_with] in S12. apply Forall_cons in S12 as [Sxy S12].
    cbn [map combine zip_with fst snd].
    rewrite (ie_mul _ _ _ IE x y Hx Hy Sx Sy Sxy), (IH v2 H2 S1 S2 S12).
    reflexivity.
Qed.

Lemma squares_small (v : list Z) :
  Forall (Z.le 0) v -> small (int_dot v v) ->
  Forall small (zip_with Z.mul v v) /\ Forall small v.
Proof.
  intros Hv Hs.
  assert (Hsq : Forall small (zip_with Z.mul v v)).
  { apply small_entries; [apply zip_with_mul_nonneg; assumption|exact Hs]. }
  split; [exact Hsq|].
  rewrite zip_with_mul_self in Hsq.
  apply List.Forall_forall. intros x Hx.
  pose proof (proj1 (List.Forall_forall _ _) Hv x Hx) as Hx0.
  apply (ie_small_le _ _ _ IE x (x * x)); [nia|].
  apply (proj1 (List.Forall_forall _ _) Hsq). apply in_map_iff. eauto.
Qed.

(** On vectors of small non-negative integers the cosine similarity is a
    function of the three integer sums. *)
Lemma cosine_similarity_sums (v1 v2 : list Z) :
  Forall (Z.le 0) v1 -> Forall (Z.le 0) v2 ->
  small (int_dot v1 v1) -> small (int_dot v2 v2) -> small (int_dot v1 v2) ->
  calculate_cosine_similarity v1 v2
  = cosine_of_sums embed (int_dot v1 v2) (int_dot v1 v1) (int_dot v2 v2).
Proof.
  intros H1 H2 S1 S2 S12.
  destruct (squares_small v1 H1 S1) as [Sq1 Sv1].
  destruct (squares_small v2 H2 S2) as [Sq2 Sv2].
  assert (Sp : Forall small (zip_with Z.mul v1 v2)).
  { apply small_entries; [apply zip_with_mul_nonneg; assumption|exact S12]. }
  assert (Hconv : forall v, Forall (Z.le 0) v -> Forall small v ->
                            mapM float_of_int v = Ok (map embed v)).
  { intros v Hv Sv. apply mapM_Ok. apply List.Forall_forall. intros x Hx.
    apply (ie_of_int _ _ _ IE).
    - exact (proj1 (List.Forall_forall _ _) Hv x Hx).
    - exact (proj1 (List.Forall_forall _ _) Sv x Hx). }
  assert (Hsq : forall v, Forall (Z.le 0) v -> Forall small (zip_with Z.mul v v) ->
                          mapM fpow2 (map embed v)
                          = Ok (map embed (zip_with Z.mul v v))).
  { intros v Hv Sv. rewrite zip_with_mul_self in *.
    clear -IE Hv Sv. induction Hv as [|x v Hx Hv IH]; [reflexivity|].
    cbn [map] in Sv. apply Forall_cons in Sv as [Sx Sv].
    cbn [map mapM]. rewrite (ie_pow2 _ _ _ IE x Hx Sx). cbn.
    rewrite (IH Sv). reflexivity. }
  unfold calculate_cosine_similarity, cosine_of_sums.
  rewrite (Hconv v1 H1 Sv1). cbn [mbind result_bind].
  rewrite (Hconv v2 H2 Sv2). cbn [mbind result_bind].
  rewrite (Hsq v1 H1 Sq1). cbn [mbind result_bind].
  rewrite (Hsq v2 H2 Sq2). cbn [mbind result_bind].
  rewrite (products_embed v1 v2 H1 H2 Sv1 Sv2 Sp).
  rewrite !sum_embed by
    (try (apply zip_with_mul_nonneg; assumption); assumption).
  reflexivity.
Qed.

Lemma cosine_of_sums_comm (d s1 s2 : Z) :
  cosine_of_sums embed d s1 s2 = cosine_of_sums embed d s2 s1.
Proof.
  unfold cosine_of_sums. rewrite orb_comm, (ie_mul_comm _ _ _ IE). reflexivity.
Qed.

End ExactIntegers.

Section Instances.

Lemma SFmul_comm (x y : spec_float) :
  SFmul B64.prec B64.emax x y = SFmul B64.prec B64.emax y x.
Proof.
  destruct x as [sx|sx| |sx mx ex], y as [sy|sy| |sy my ey]; simpl;
    try reflexivity; try (rewrite xorb_comm; reflexivity).
  rewrite xorb_comm, Pos.mul_comm, Z.add_comm. reflexivity.
Qed.

Lemma square_ge (a : Z) : 0 <= a -> a <= a * a.
Proof. intros Ha. nia. Qed.

(** Binary64 is exact on the non-negative integers below [2^53]. *)
Lemma binary64_integer_exact :
  integer_exact binary64 B64.round_int (fun a => a < 2 ^ 53).
Proof.
  constructor.
  - intros a b Hab Hb. lia.
  - reflexivity.
  - intros a Ha Hs. cbn [float_of_int binary64]. unfold B64.of_int.
    destruct (round_int_finite a) as [-> _]; [lia|]. reflexivity.
  - intros a b Ha Hb Hs. apply round_int_add; assumption.
  - intros a b Ha Hb Sa Sb Sab. apply round_int_mul; lia.
  - intros a Ha Hs. cbn [fpow2 binary64]. unfold B64.pow2.
    pose proof (square_ge a Ha) as Hsq.
    rewrite round_int_mul by lia.
    destruct (round_int_finite (a * a)) as [-> _]; [nia|].
    rewrite andb_false_r. reflexivity.
  - exact SFmul_comm.
Qed.

(** Real arithmetic is exact on all of them. *)
Lemma exact_integer_exact : integer_exact exact IZR (fun _ => True).
Proof.
  constructor; try (intros; exact I); try reflexivity.
  - intros a b _ _ _. symmetry. apply plus_IZR.
  - intros a b _ _ _ _ _. symmetry. apply mult_IZR.
  - intros a _ _. cbn. rewrite mult_IZR. reflexivity.
  - intros x y. apply Rmult_comm.
Qed.

End Instances.

Section Cosine.

Lemma eq_zero_true (x : R) : Exact.eq_zero x = true <-> x = 0%R.
Proof. unfold Exact.eq_zero. destruct (Req_dec_T x 0); split; congruence. Qed.

Lemma eq_zero_false (x : R) : Exact.eq_zero x = false <-> x <> 0%R.
Proof. unfold Exact.eq_zero. destruct (Req_dec_T x 0); split; congruence. Qed.

Lemma sqrt_IZR_pos (s : Z) : 0 < s -> (0 < sqrt (IZR s))%R.
Proof. intros Hs. apply sqrt_lt_R0. apply (IZR_lt 0 s Hs). Qed.

Lemma int_dot_positive (v : list Z) :
  (exists x, In x v /\ x <> 0) -> 0 < int_dot v v.
Proof.
  intros [x [Hin Hx]]. induction v as [|y v IH]; [contradiction|].
  rewrite int_dot_cons. pose proof (int_dot_self_nonneg v).
  destruct Hin as [->|Hin]; [nia|]. specialize (IH Hin). nia.
Qed.

End Cosine.

(** The unit tests of the cosine similarity, in binary64. *)
Example test_cosine_similarity :
  calculate_cosine_similarity (PF := binary64) [1; 2; 3] [1; 2; 3] = Ok B64.one
  /\ calculate_cosine_similarity (PF := binary64) [1; 0] [0; 1] = Ok B64.zero
  /\ calculate_cosine_similarity (PF := binary64) [0; 0] [1; 2] = Ok B64.zero
  /\ calculate_cosine_similarity (PF := binary64) [1; 1; 0] [1; 2; 0]
     = Ok (S754_finite false 8544979495185814 (-53)).
Proof. repeat split; vm_compute; reflexivity. Qed.

(** A count beyond the range of a double makes the conversion fail. *)
Example cosine_similarity_overflow :
  calculate_cosine_similarity (PF := binary64) [0] [2 ^ 1024]
  = Raise OverflowError.
Proof. vm_compute. reflexivity. Qed.







(** * Symmetry of the combined score *)

Section CountVectors.

Context {K : Type} `{EqDecision K}.
Implicit Types (words vocabulary : list K).

Lemma occurrences_nonneg (w : K) words : 0 <= occurrences w words.
Proof.
  induction words as [|x words IH]; simpl; [lia|].
  destruct (decide (x = w)); lia.
Qed.

(** On a vocabulary of distinct tokens the vector is the list of counts. *)
Lemma text_to_vector_map words vocabulary :
  NoDup vocabulary ->
  text_to_vector words vocabulary
  = Ok (map (fun w => occurrences w words) vocabulary).
Proof.
  intros Hnd.
  destruct (text_to_vector_spec words vocabulary Hnd) as [v [-> [Hlen Hv]]].
  f_equal. apply list_eq. intros i.
  change (map (fun w => occurrences w words) vocabulary)
    with ((fun w => occurrences w words) <$> vocabulary).
  rewrite list_lookup_fmap.
  destruct (vocabulary !! i) as [w|] eqn:Hi.
  - rewrite (Hv i w Hi). reflexivity.
  - apply lookup_ge_None in Hi. apply lookup_ge_None. lia.
Qed.

Lemma int_dot_map (f g : K -> Z) vocabulary :
  int_dot (map f vocabulary) (map g vocabulary)
  = int_sum (map (fun w => f w * g w) vocabulary).
Proof.
  induction vocabulary as [|w vocabulary IH]; [reflexivity|].
  cbn [map]. rewrite int_dot_cons, IH. reflexivity.
Qed.

Lemma int_sum_map_perm (h : K -> Z) vocabulary vocabulary' :
  Permutation vocabulary vocabulary' ->
  int_sum (map h vocabulary) = int_sum (map h vocabulary').
Proof.
  induction 1 as [|x l l' _ IH|x y l|l l' l'' _ IH1 _ IH2]; simpl in *; lia.
Qed.

Lemma indicator_sum_le (x : K) vocabulary :
  NoDup vocabulary ->
  0 <= int_sum (map (fun w => if decide (x = w) then 1 else 0) vocabulary) <= 1
  /\ (x ∉ vocabulary ->
      int_sum (map (fun w => if decide (x = w) then 1 else 0) vocabulary) = 0).
Proof.
  induction 1 as [|w vocabulary Hw Hnd [IH1 IH2]]; simpl.
  - split; [lia|reflexivity].
  - destruct (decide (x = w)) as [->|Hne].
    + rewrite (IH2 Hw). split; [lia|]. intros Hout. exfalso. apply Hout.
      apply list_elem_of_here.
    + split; [lia|]. intros Hout. apply IH2. intros Hin. apply Hout.
      apply list_elem_of_further, Hin.
Qed.

(** The counts over a vocabulary of distinct tokens add up to at most the
    number of words. *)
Lemma occurrences_sum_le words vocabulary :
  NoDup vocabulary ->
  int_sum (map (fun w => occurrences w words) vocabulary)
  <= Z.of_nat (length words).
Proof.
  intros Hnd. induction words as [|x words IH].
  - simpl. induction vocabulary as [|w vocabulary IHv]; simpl; [lia|].
    apply NoDup_cons in Hnd. destruct Hnd as [_ Hnd]. specialize (IHv Hnd). lia.
  - cbn [occurrences length]. rewrite Nat2Z.inj_succ.
    assert (Hsplit : forall l : list K,
               int_sum (map (fun w => (if decide (x = w) then 1 else 0)
                                      + occurrences w words) l)
               = int_sum (map (fun w => if decide (x = w) then 1 else 0) l)
                 + int_sum (map (fun w => occurrences w words) l)).
    { induction l as [|w l IHl]; simpl; [reflexivity|]. rewrite IHl. lia. }
    rewrite Hsplit. pose proof (indicator_sum_le x vocabulary Hnd) as [Hi _].
    lia.
Qed.

Lemma occurrences_vector_nonneg words vocabulary :
  Forall (Z.le 0) (map (fun w => occurrences w words) vocabulary).
Proof.
  apply List.Forall_forall. intros z Hz. apply in_map_iff in Hz.
  destruct Hz as [w [<- _]]. apply occurrences_nonneg.
Qed.

End CountVectors.

Section Symmetry.

Variable ua : char -> bool.
Variable jieba_lcut : str -> list str.
Variable list_set : list str -> list str.
Hypothesis list_set_ok : list_set_contract list_set.
Context {Path : Type}.
Variable files : Path -> option str.

Lemma vocabulary_perm (words1 words2 : list str) :
  Permutation (list_set (words1 ++ words2)) (list_set (words2 ++ words1)).
Proof.
  destruct (list_set_ok (words1 ++ words2)) as [Hnd Hin].
  destruct (list_set_ok (words2 ++ words1)) as [Hnd' Hin'].
  apply NoDup_Permutation; [exact Hnd|exact Hnd'|].
  intros w. rewrite Hin, Hin', !elem_of_app. tauto.
Qed.

Lemma edit_similarity_sym (text1 text2 : str) :
  calculate_edit_distance_similarity (PF := binary64) text1 text2
  = calculate_edit_distance_similarity (PF := binary64) text2 text1.
Proof.
  unfold calculate_edit_distance_similarity.
  rewrite levenshtein_sym, Z.max_comm. reflexivity.
Qed.

(** The cosine of the two count vectors does not depend on which document
    comes first, nor on the order of the vocabulary. *)
Lemma cosine_counts_sym (words1 words2 : list str) :
  Z.of_nat (length words1) < 2 ^ 26 -> Z.of_nat (length words2) < 2 ^ 26 ->
  let v := list_set (words1 ++ words2) in
  let v' := list_set (words2 ++ words1) in
  calculate_cosine_similarity (PF := binary64)
    (map (fun w => occurrences w words1) v)
    (map (fun w => occurrences w words2) v)
  = calculate_cosine_similarity (PF := binary64)
      (map (fun w => occurrences w words2) v')
      (map (fun w => occurrences w words1) v').
Proof.
  intros Hl1 Hl2 v v'.
  pose proof (vocabulary_perm words1 words2) as Hperm. fold v v' in Hperm.
  destruct (list_set_ok (words1 ++ words2)) as [Hnd _]. fold v in Hnd.
  destruct (list_set_ok (words2 ++ words1)) as [Hnd' _]. fold v' in Hnd'.
  assert (Hbound : forall (wa wb : list str) (l : list str),
             NoDup l ->
             Z.of_nat (length wa) < 2 ^ 26 -> Z.of_nat (length wb) < 2 ^ 26 ->
             int_dot (map (fun w => occurrences w wa) l)
                     (map (fun w => occurrences w wb) l) < 2 ^ 53).
  { intros wa wb l Hl Ha Hb.
    pose proof (int_dot_le_sums _ _ (occurrences_vector_nonneg wa l)
                  (occurrences_vector_nonneg wb l)) as Hle.
    pose proof (occurrences_sum_le wa l Hl) as Hsa.
    pose proof (occurrences_sum_le wb l Hl) as Hsb.
    pose proof (int_sum_nonneg _ (occurrences_vector_nonneg wa l)) as Hna.
    pose proof (int_sum_nonneg _ (occurrences_vector_nonneg wb l)) as Hnb.
    change (2 ^ 26) with 67108864 in *.
    change (2 ^ 53) with 9007199254740992. nia. }
  rewrite !(cosine_similarity_sums B64.round_int _ binary64_integer_exact)
    by (try apply occurrences_vector_nonneg; apply Hbound; assumption).
  rewrite !int_dot_map.
  rewrite (int_sum_map_perm _ v' v) by (symmetry; exact Hperm).
  rewrite (int_sum_map_perm (fun w => occurrences w words2 * occurrences w words2) v' v)
    by (symmetry; exact Hperm).
  rewrite (int_sum_map_perm (fun w => occurrences w words1 * occurrences w words1) v' v)
    by (symmetry; exact Hperm).
  rewrite (cosine_of_sums_comm B64.round_int _ binary64_integer_exact).
  rewrite <- !int_dot_map.
  rewrite (int_dot_comm (map (fun w => occurrences w words2) v)
             (map (fun w => occurrences w words1) v)).
  reflexivity.
Qed.

Lemma mapM_of_int_raise (v : list Z) (e : exn) :
  mapM B64.of_int v = Raise e -> e = OverflowError.
Proof.
  intros H. apply mapM_raise in H. destruct H as [a [_ H]].
  unfold B64.of_int in H. destruct (B64.is_infinite _); congruence.
Qed.

Lemma mapM_pow2_raise (xs : list spec_float) (e : exn) :
  mapM B64.pow2 xs = Raise e -> e = OverflowError.
Proof.
  intros H. apply mapM_raise in H. destruct H as [a [_ H]].
  unfold B64.pow2 in H. destruct (_ && _); congruence.
Qed.

Lemma products_comm (xs ys : list spec_float) :
  map (fun xy => SFmul B64.prec B64.emax (fst xy) (snd xy)) (combine xs ys)
  = map (fun xy => SFmul B64.prec B64.emax (fst xy) (snd xy)) (combine ys xs).
Proof.
  revert ys. induction xs as [|x xs IH]; intros [|y ys]; try reflexivity.
  cbn [combine map fst snd]. rewrite SFmul_comm, IH. reflexivity.
Qed.

(** The cosine similarity of two vectors in a fixed order of the
    vocabulary is symmetric, errors included. *)
Lemma cosine_similarity_sym (vec1 vec2 : list Z) :
  calculate_cosine_similarity (PF := binary64) vec1 vec2
  = calculate_cosine_similarity (PF := binary64) vec2 vec1.
Proof.
  unfold calculate_cosine_similarity.
  cbn [float_of_int fpow2 fmul fdiv feq_zero fpow_half fzero binary64].
  destruct (mapM B64.of_int vec1) as [f1|e1] eqn:H1;
    destruct (mapM B64.of_int vec2) as [f2|e2] eqn:H2;
    cbn [mbind result_bind]; try reflexivity.
  - rewrite (products_comm f1 f2).
    destruct (mapM B64.pow2 f1) as [s1|e1] eqn:H3;
      destruct (mapM B64.pow2 f2) as [s2|e2] eqn:H4;
      cbn [mbind result_bind]; try reflexivity.
    + rewrite orb_comm, SFmul_comm. reflexivity.
    + rewrite (mapM_pow2_raise _ _ H3), (mapM_pow2_raise _ _ H4). reflexivity.
  - rewrite (mapM_of_int_raise _ _ H1), (mapM_of_int_raise _ _ H2). reflexivity.
Qed.


End Symmetry.

Lemma sample_list_set_contract : list_set_contract sample_list_set.
Proof.
  intros words. split; [apply NoDup_remove_dups|].
  intros word. apply elem_of_remove_dups.
Qed.


(** * Further properties of the normaliser *)

Section NormalizerMore.

Variable ua : char -> bool.

Lemma lstrip_nil_iff text :
  lstrip text = [] <-> Forall (fun c => is_space c = true) text.
Proof.
  induction text as [|c text IH]; simpl.
  - split; [constructor|reflexivity].
  - destruct (is_space c) eqn:Hc.
    + rewrite IH. split; [constructor; assumption|].
      intros H. apply Forall_cons in H. apply H.
    + split; [discriminate|]. intros H. apply Forall_cons in H.
      destruct H as [H _]. congruence.
Qed.

Lemma strip_nil_iff text :
  strip text = [] <-> Forall (fun c => is_space c = true) text.
Proof.
  unfold strip. split.
  - intros H. apply lstrip_nil_iff.
    destruct (lstrip text) as [|c l] eqn:E; [reflexivity|exfalso].
    pose proof (head_not_space_lstrip text) as Hh. rewrite E in Hh.
    simpl in Hh. apply negb_true_iff in Hh.
    unfold rstrip in H. simpl in H. rewrite lstrip_snoc in H by exact Hh.
    rewrite rev_app_distr in H. discriminate.
  - intros H. apply lstrip_nil_iff in H. rewrite H. reflexivity.
Qed.

Lemma sub_spaces_all_space b text :
  Forall (fun c => is_space c = true) (sub_spaces b text)
  <-> Forall (fun c => is_space c = true) text.
Proof.
  revert b. induction text as [|c text IH]; intros b; simpl.
  - split; constructor.
  - destruct (is_space c) eqn:Hc.
    + destruct b.
      * rewrite IH. split; [constructor; assumption|].
        intros H. apply Forall_cons in H. apply H.
      * split; intros H; apply Forall_cons in H; destruct H as [_ H];
          (constructor; [first [exact Hc|reflexivity]|]); apply (IH true), H.
    + split; intros H; apply Forall_cons in H; destruct H as [H _]; congruence.
Qed.

Lemma clean_nil_iff text :
  clean ua text = []
  <-> forall c, In c text -> is_word ua c = true -> is_space c = true.
Proof.
  unfold clean. rewrite strip_nil_iff, sub_spaces_all_space.
  unfold remove_punct. rewrite List.Forall_forall. split.
  - intros H c Hc Hw. apply H. apply filter_In. split; [exact Hc|].
    rewrite Hw. reflexivity.
  - intros H c Hc. apply filter_In in Hc. destruct Hc as [Hc Hk].
    destruct (is_space c) eqn:Hs; [reflexivity|].
    rewrite orb_false_r in Hk. rewrite (H c Hc Hk) in Hs. discriminate.
Qed.

Lemma remove_stopwords_nil_iff text :
  remove_stopwords text = [] <-> Forall (fun c => is_stopword c = true) text.
Proof.
  split; [|apply remove_stopwords_all].
  unfold remove_stopwords. induction text as [|c text IH]; simpl; [constructor|].
  destruct (is_stopword c) eqn:Hc; simpl; [|discriminate].
  intros H. constructor; [exact Hc|apply IH, H].
Qed.

(** X1: [preprocess_text] returns the empty text exactly when the document
    has no word character that is not whitespace, or when the cleaned text
    is longer than 800 characters and made of stopwords only. *)
Theorem preprocess_text_empty_iff (text : str) :
  preprocess_text ua text = []
  <-> (forall c, In c text -> is_word ua c = true -> is_space c = true)
      \/ (800 < Z.of_nat (length (clean ua text))
          /\ Forall (fun c => is_stopword c = true) (clean ua text)).
Proof.
  rewrite preprocess_text_unfold, <- clean_nil_iff.
  destruct (800 <? Z.of_nat (length (clean ua text))) eqn:Hlen.
  - apply Z.ltb_lt in Hlen. rewrite remove_stopwords_nil_iff. split.
    + intros H. right. split; assumption.
    + intros [H|[_ H]]; [|exact H]. rewrite H. constructor.
  - apply Z.ltb_ge in Hlen. split; [auto|]. intros [H|[H _]]; [exact H|lia].
Qed.

Lemma sub_spaces_length b text :
  (length (sub_spaces b text) <= length text)%nat.
Proof.
  revert b. induction text as [|c text IH]; intros b; simpl; [lia|].
  pose proof (IH true). pose proof (IH false).
  destruct (is_space c); [destruct b|]; simpl; lia.
Qed.

Lemma strip_length text : (length (strip text) <= length text)%nat.
Proof.
  unfold strip. destruct (lstrip_split text) as [k [H1 _]].
  destruct (rstrip_split (lstrip text)) as [k' [H2 _]].
  rewrite H1 at 2. rewrite H2 at 2. rewrite !length_app. lia.
Qed.

Lemma strip_In text c : In c (strip text) -> In c text.
Proof.
  unfold strip. destruct (lstrip_split text) as [k [H1 _]].
  destruct (rstrip_split (lstrip text)) as [k' [H2 _]].
  intros H. rewrite H1, H2. apply in_or_app. right. apply in_or_app. left.
  exact H.
Qed.

Lemma sub_spaces_In b text c :
  In c (sub_spaces b text) ->
  (In c text /\ is_space c = false)
  \/ (c = space /\ exists w, In w text /\ is_space w = true).
Proof.
  revert b. induction text as [|d text IH]; intros b; simpl; [contradiction|].
  assert (Hlift : forall b',
             In c (sub_spaces b' text) ->
             (((d = c \/ In c text) /\ is_space c = false)
              \/ (c = space /\ exists w, (d = w \/ In w text) /\ is_space w = true))).
  { intros b' H. destruct (IH b' H) as [[H1 H2]|[H1 [w [H2 H3]]]].
    - left. auto.
    - right. split; [exact H1|]. exists w. auto. }
  destruct (is_space d) eqn:Hd.
  - destruct b; [apply Hlift|]. intros [<-|H]; [|apply (Hlift true), H].
    right. split; [reflexivity|]. exists d. auto.
  - intros [<-|H]; [left; auto|apply (Hlift false), H].
Qed.

(** X2: [preprocess_text] never lengthens a text, and it invents no
    character: a character of the output that is not whitespace is a
    character of the input, and a whitespace character of the output is an
    ASCII space that stands for some whitespace of the input. *)
Theorem preprocess_text_shrinks (text : str) :
  (length (preprocess_text ua text) <= length text)%nat
  /\ forall c, In c (preprocess_text ua text) ->
       (In c text /\ is_space c = false)
       \/ (c = space /\ exists w, In w text /\ is_space w = true).
Proof.
  assert (Hlen : (length (clean ua text) <= length text)%nat).
  { unfold clean. pose proof (strip_length (sub_spaces false (remove_punct ua text))).
    pose proof (sub_spaces_length false (remove_punct ua text)).
    pose proof (filter_length_le (fun c => is_word ua c || is_space c) text).
    unfold remove_punct in *. lia. }
  assert (Hin : forall c, In c (clean ua text) ->
             (In c text /\ is_space c = false)
             \/ (c = space /\ exists w, In w text /\ is_space w = true)).
  { intros c Hc. unfold clean in Hc. apply strip_In, sub_spaces_In in Hc.
    unfold remove_punct in Hc.
    destruct Hc as [[H1 H2]|[H1 [w [H2 H3]]]].
    - left. apply filter_In in H1. split; [apply H1|exact H2].
    - right. split; [exact H1|]. exists w. apply filter_In in H2.
      split; [apply H2|exact H3]. }
  rewrite preprocess_text_unfold. destruct (800 <? _); [|split; assumption].
  split.
  - pose proof (filter_length_le (fun c => negb (is_stopword c)) (clean ua text)).
    unfold remove_stopwords. lia.
  - intros c Hc. apply filter_In in Hc. apply Hin, Hc.
Qed.

End NormalizerMore.

(** * Further properties of the segmenter *)

Section SegmenterMore.

Variable jieba_lcut : str -> list str.

Lemma strip_nonempty_exists (word : str) :
  strip_nonempty word = existsb (fun c => negb (is_space c)) word.
Proof.
  unfold strip_nonempty.
  destruct (existsb (fun c => negb (is_space c)) word) eqn:E.
  - destruct (strip word) eqn:Hs; [|reflexivity].
    apply strip_nil_iff in Hs. apply existsb_exists in E.
    destruct E as [c [Hc Hn]]. rewrite List.Forall_forall in Hs.
    rewrite (Hs c Hc) in Hn. discriminate.
  - assert (Hs : strip word = []).
    { apply strip_nil_iff. apply List.Forall_forall. intros c Hc.
      destruct (is_space c) eqn:Hsp; [reflexivity|exfalso].
      assert (existsb (fun c => negb (is_space c)) word = true)
        by (apply existsb_exists; exists c; rewrite Hsp; auto).
      congruence. }
    rewrite Hs. reflexivity.
Qed.

(** X3: [segment_text] returns, in jieba's order and with their
    repetitions, exactly the words of jieba that contain a character that
    is not whitespace. *)
Theorem segment_text_filter (text : str) :
  segment_text jieba_lcut text
  = List.filter (fun word => existsb (fun c => negb (is_space c)) word)
      (jieba_lcut text).
Proof.
  unfold segment_text. apply filter_ext. intros word.
  apply strip_nonempty_exists.
Qed.

Hypothesis jieba_ok : jieba_contract jieba_lcut.


End SegmenterMore.


(** * Further properties of the term frequencies and the vectors *)

Section VectorMore.

Context {K : Type} `{EqDecision K}.
Implicit Types (word w : K) (c items : list (K * Z)) (vocabulary words : list K).

Lemma counter_get_NoDup c k n :
  NoDup c.*1 -> (k, n) ∈ c -> counter_get c k = n.
Proof.
  induction c as [|[k' n'] c IH]; intros Hnd Hin.
  - apply elem_of_nil in Hin. contradiction.
  - rewrite fmap_cons in Hnd. cbn [fst] in Hnd.
    apply NoDup_cons in Hnd. destruct Hnd as [Hk' Hnd].
    apply elem_of_cons in Hin. cbn [counter_get].
    destruct Hin as [[= -> ->]|Hin].
    + rewrite decide_True by reflexivity. reflexivity.
    + destruct (decide (k' = k)) as [->|_]; [|apply IH; assumption].
      exfalso. apply Hk'. apply list_elem_of_fmap. exists (k, n). auto.
Qed.

Lemma term_frequency_keys words c word :
  word ∈ (fold_left (fun c w => counter_incr w c) words c).*1
  <-> word ∈ words \/ word ∈ c.*1.
Proof.
  revert c. induction words as [|x words IH]; intros c; cbn [fold_left].
  - rewrite elem_of_nil. tauto.
  - rewrite IH, counter_incr_keys, elem_of_cons.
    destruct (decide (x ∈ c.*1)) as [Hx|Hx].
    + split; [tauto|]. intros [[->|?]|?]; auto.
    + rewrite elem_of_app, list_elem_of_singleton. tauto.
Qed.

Lemma occurrences_pos word words : word ∈ words -> 1 <= occurrences word words.
Proof.
  induction words as [|x words IH]; intros Hin.
  - apply elem_of_nil in Hin. contradiction.
  - cbn [occurrences]. pose proof (occurrences_nonneg word words).
    destruct (decide (x = word)) as [|Hne]; [lia|].
    apply elem_of_cons in Hin. destruct Hin as [->|Hin]; [congruence|].
    specialize (IH Hin). lia.
Qed.

(** X5: the [Counter] built by [calculate_term_frequency] has one key for
    each distinct word of the list and no other key, and the count it
    stores under a key is the number of occurrences of that word, which is
    at least 1; looking up a word that does not occur gives 0. *)
Theorem calculate_term_frequency_spec (words : list K) :
  let word_count := calculate_term_frequency words in
  NoDup word_count.*1
  /\ (forall word, word ∈ word_count.*1 <-> word ∈ words)
  /\ (forall word count, (word, count) ∈ word_count ->
        count = occurrences word words /\ 1 <= count)
  /\ (forall word, counter_get word_count word = occurrences word words)
  /\ (forall word, word ∉ words -> counter_get word_count word = 0).
Proof.
  intros word_count.
  assert (Hkeys : forall word, word ∈ word_count.*1 <-> word ∈ words).
  { intros word. unfold word_count, calculate_term_frequency.
    rewrite term_frequency_keys, fmap_nil, elem_of_nil. tauto. }
  split; [apply term_frequency_NoDup|]. split; [exact Hkeys|]. split.
  - intros word count Hin.
    assert (Hc : count = occurrences word words).
    { rewrite <- term_frequency_get. symmetry.
      apply counter_get_NoDup; [apply term_frequency_NoDup|exact Hin]. }
    split; [exact Hc|]. rewrite Hc. apply occurrences_pos, Hkeys.
    apply list_elem_of_fmap. exists (word, count). auto.
  - split; [apply term_frequency_get|].
    intros word Hout. apply counter_get_absent. rewrite Hkeys. exact Hout.
Qed.

Lemma first_at_unique vocabulary w i j :
  first_at vocabulary w i -> first_at vocabulary w j -> i = j.
Proof.
  intros [Hi Hi'] [Hj Hj'].
  destruct (Nat.lt_trichotomy i j) as [Hlt|[Heq|Hgt]]; [|exact Heq|].
  - exfalso. apply (Hj' i Hlt Hi).
  - exfalso. apply (Hi' j Hgt Hj).
Qed.

Lemma index_first word vocabulary :
  word ∈ vocabulary ->
  exists idx, index word vocabulary = Ok idx /\ first_at vocabulary word idx.
Proof.
  induction vocabulary as [|k vocabulary IH]; intros H.
  - apply elem_of_nil in H. contradiction.
  - cbn [index]. destruct (decide (k = word)) as [->|Hk].
    + exists O. split; [reflexivity|]. split; [reflexivity|]. intros j Hj. lia.
    + apply elem_of_cons in H. destruct H as [->|H]; [contradiction|].
      destruct (IH H) as [idx [H1 [H2 H3]]]. rewrite H1. exists (S idx).
      split; [reflexivity|]. split; [exact H2|].
      intros [|j] Hj; cbn; [congruence|]. apply H3. lia.
Qed.

Lemma vector_step_first vocabulary vector word count :
  length vector = length vocabulary ->
  exists vector',
    vector_step vocabulary vector (word, count) = Ok vector'
    /\ length vector' = length vocabulary
    /\ forall i w, vocabulary !! i = Some w ->
         (first_at vocabulary w i -> w = word -> vector' !! i = Some count)
         /\ (~ first_at vocabulary w i \/ w <> word ->
             vector' !! i = vector !! i).
Proof.
  intros Hlen. unfold vector_step, contains.
  destruct (bool_decide (word ∈ vocabulary)) eqn:Hin.
  - apply bool_decide_eq_true in Hin.
    destruct (index_first word vocabulary Hin) as [idx [H1 Hfirst]].
    rewrite H1. cbn [mbind result_bind]. unfold assign.
    pose proof (lookup_lt_Some _ _ _ (proj1 Hfirst)) as Hlt.
    assert (Hb : (idx <? length vector)%nat = true)
      by (apply Nat.ltb_lt; lia).
    rewrite Hb. eexists. split; [reflexivity|]. split.
    + rewrite length_insert. exact Hlen.
    + intros i w Hi. split.
      * intros Hf ->. rewrite (first_at_unique _ _ _ _ Hf Hfirst).
        apply list_lookup_insert_eq. lia.
      * intros Hne. apply list_lookup_insert_ne. intros ->.
        destruct Hfirst as [Hidx Hbefore]. rewrite Hidx in Hi.
        injection Hi as <-. destruct Hne as [Hne|Hne]; [|congruence].
        apply Hne. split; assumption.
  - exists vector. split; [reflexivity|]. split; [exact Hlen|].
    intros i w Hi. split; [|reflexivity].
    intros _ ->. apply bool_decide_eq_false in Hin. exfalso. apply Hin.
    eapply list_elem_of_lookup_2, Hi.
Qed.

Lemma vector_loop_first vocabulary items vector :
  NoDup items.*1 -> length vector = length vocabulary ->
  exists vector',
    vector_loop vocabulary items vector = Ok vector'
    /\ length vector' = length vocabulary
    /\ forall i w, vocabulary !! i = Some w ->
         (first_at vocabulary w i -> w ∈ items.*1 ->
          vector' !! i = Some (counter_get items w))
         /\ (~ first_at vocabulary w i \/ w ∉ items.*1 ->
             vector' !! i = vector !! i).
Proof.
  revert vector.
  induction items as [|[word count] items IH]; intros vector Hk Hlen.
  - exists vector. split; [reflexivity|]. split; [exact Hlen|].
    intros i w _. split; [|reflexivity].
    intros _ Hin. apply elem_of_nil in Hin. contradiction.
  - rewrite fmap_cons in Hk. cbn [fst] in Hk.
    apply NoDup_cons in Hk. destruct Hk as [Hword Hk].
    destruct (vector_step_first vocabulary vector word count Hlen)
      as [v1 [Hstep [Hlen1 Hv1]]].
    destruct (IH v1 Hk Hlen1) as [v2 [Hloop [Hlen2 Hv2]]].
    exists v2. cbn [vector_loop]. rewrite Hstep. split; [exact Hloop|].
    split; [exact Hlen2|]. intros i w Hi.
    destruct (Hv1 i w Hi) as [Hv1a Hv1b]. destruct (Hv2 i w Hi) as [Hv2a Hv2b].
    rewrite fmap_cons. cbn [fst counter_get]. split.
    + intros Hf Hin. apply elem_of_cons in Hin.
      destruct (decide (word = w)) as [->|Hne].
      * rewrite Hv2b by (right; exact Hword). apply Hv1a; [exact Hf|reflexivity].
      * destruct Hin as [->|Hin]; [congruence|]. apply Hv2a; assumption.
    + intros Hne. destruct (decide (w ∈ items.*1)) as [Hin|Hout].
      * assert (Hnf : ~ first_at vocabulary w i).
        { destruct Hne as [Hnf|Hnin]; [exact Hnf|].
          exfalso. apply Hnin. apply list_elem_of_further, Hin. }
        rewrite Hv2b by (left; exact Hnf). apply Hv1b. left. exact Hnf.
      * rewrite Hv2b by (right; exact Hout). apply Hv1b.
        destruct Hne as [Hnf|Hnin]; [left; exact Hnf|].
        right. intros ->. apply Hnin. apply list_elem_of_here.
Qed.

(** X6: for every vocabulary, with repeated tokens or not,
    [text_to_vector] returns a vector as long as the vocabulary; the count
    of a token stands at the first position of that token, and every later
    position of a repeated token holds 0. *)
Theorem text_to_vector_first (words vocabulary : list K) :
  exists vector,
    text_to_vector words vocabulary = Ok vector
    /\ length vector = length vocabulary
    /\ forall i w, vocabulary !! i = Some w ->
         (first_at vocabulary w i -> vector !! i = Some (occurrences w words))
         /\ (~ first_at vocabulary w i -> vector !! i = Some 0).
Proof.
  unfold text_to_vector.
  destruct (vector_loop_first vocabulary (calculate_term_frequency words)
              (replicate (length vocabulary) 0)
              (term_frequency_NoDup words) (length_replicate _ _))
    as [v [H1 [H2 H3]]].
  exists v. split; [exact H1|]. split; [exact H2|].
  intros i w Hi. destruct (H3 i w Hi) as [Ha Hb].
  assert (Hzero : replicate (length vocabulary) 0 !! i = Some 0).
  { apply lookup_replicate_2. eapply lookup_lt_Some, Hi. }
  split.
  - intros Hf. rewrite <- term_frequency_get.
    destruct (decide (w ∈ (calculate_term_frequency words).*1)) as [Hin|Hout].
    + apply Ha; assumption.
    + rewrite Hb by (right; exact Hout).
      rewrite (counter_get_absent _ _ Hout). exact Hzero.
  - intros Hnf. rewrite Hb by (left; exact Hnf). exact Hzero.
Qed.

Lemma indicator_sum_in (x : K) vocabulary :
  NoDup vocabulary -> x ∈ vocabulary ->
  int_sum (map (fun w => if decide (x = w) then 1 else 0) vocabulary) = 1.
Proof.
  induction 1 as [|w vocabulary Hw Hnd IH]; intros Hin.
  - apply elem_of_nil in Hin. contradiction.
  - cbn [map]. change (int_sum (?a :: ?l)) with (a + int_sum l).
    destruct (decide (x = w)) as [->|Hne].
    + rewrite (proj2 (indicator_sum_le w vocabulary Hnd) Hw). reflexivity.
    + apply elem_of_cons in Hin. destruct Hin as [->|Hin]; [congruence|].
      rewrite (IH Hin). reflexivity.
Qed.

(** X7: over a vocabulary of distinct tokens the entries of the vector add
    up to the number of words that are in the vocabulary; when the
    vocabulary holds every word, as the one the pipeline builds does, they
    add up to the number of words. *)
Theorem text_to_vector_total_count (words vocabulary : list K) :
  NoDup vocabulary ->
  exists vector,
    text_to_vector words vocabulary = Ok vector
    /\ int_sum vector
       = Z.of_nat (length (List.filter (fun word => contains word vocabulary)
                             words))
    /\ ((forall word, word ∈ words -> word ∈ vocabulary) ->
        int_sum vector = Z.of_nat (length words)).
Proof.
  intros Hnd. rewrite (text_to_vector_map words vocabulary Hnd).
  eexists. split; [reflexivity|].
  assert (Hsum : int_sum (map (fun w => occurrences w words) vocabulary)
                 = Z.of_nat (length (List.filter
                                       (fun word => contains word vocabulary)
                                       words))).
  { induction words as [|x words IH]; cbn [occurrences List.filter].
    - clear. induction vocabulary as [|w vocabulary IHv]; [reflexivity|].
      cbn [map]. change (int_sum (?a :: ?l)) with (a + int_sum l).
      rewrite IHv. reflexivity.
    - assert (Hsplit : forall l : list K,
                 int_sum (map (fun w => (if decide (x = w) then 1 else 0)
                                        + occurrences w words) l)
                 = int_sum (map (fun w => if decide (x = w) then 1 else 0) l)
                   + int_sum (map (fun w => occurrences w words) l)).
      { induction l as [|w l IHl]; [reflexivity|]. cbn [map].
        change (int_sum (?a :: ?l)) with (a + int_sum l). rewrite IHl. lia. }
      rewrite Hsplit, IH. unfold contains at 2.
      destruct (bool_decide (x ∈ vocabulary)) eqn:Hx.
      + apply bool_decide_eq_true in Hx.
        rewrite (indicator_sum_in x vocabulary Hnd Hx). cbn [length]. lia.
      + apply bool_decide_eq_false in Hx.
        rewrite (proj2 (indicator_sum_le x vocabulary Hnd) Hx). lia. }
  split; [exact Hsum|]. intros Hall. rewrite Hsum. do 2 f_equal.
  clear Hsum. induction words as [|x words IH]; [reflexivity|].
  cbn [List.filter]. unfold contains at 1.
  rewrite bool_decide_eq_true_2 by (apply Hall, list_elem_of_here).
  f_equal. apply IH. intros word Hw. apply Hall, list_elem_of_further, Hw.
Qed.

End VectorMore.

(** X7, witness: the words [a b a z] over the vocabulary [a b c]. *)
Lemma text_to_vector_total_count_witness :
  exists vector,
    text_to_vector [[97]; [98]; [97]; [122]] [[97]; [98]; [99]] = Ok vector
    /\ int_sum vector = 3.
Proof.
  destruct (text_to_vector_total_count
              [[97]; [98]; [97]; [122]] [[97]; [98]; [99]])
    as [vector [H1 [H2 _]]].
  - apply (bool_decide_unpack _). vm_compute. exact I.
  - exists vector. split; [exact H1|]. rewrite H2. reflexivity.
Defined.

(** * Magnitudes of count vectors *)

Section Magnitudes.

Lemma digits_exceed (m : positive) (e : Z) :
  2 ^ (- e) <= Zpos m -> 1 <= Zpos (digits2_pos m) + e.
Proof.
  intros Hm. pose proof (digits2_pos_bounds m) as [_ Hhi].
  destruct (Z.le_gt_cases 0 e) as [He|He]; [lia|].
  destruct (Z.le_gt_cases 1 (Zpos (digits2_pos m) + e)) as [|Hlt]; [assumption|].
  assert (2 ^ Zpos (digits2_pos m) <= 2 ^ (- e))
    by (apply Z.pow_le_mono_r; lia).
  lia.
Qed.

(** Dropping the digits beyond the 53rd of a value that is at least 1. *)
Lemma shift_at_least_one (m : positive) (e : Z) :
  2 ^ (- e) <= Zpos m ->
  let k := Z.max (fexp B64.prec B64.emax (Zdigits2 (Zpos m) + e) - e) 0 in
  1 <= Zpos m / 2 ^ k /\ 2 ^ (- (e + k)) <= Zpos m / 2 ^ k.
Proof.
  intros Hm k. pose proof (digits_exceed m e Hm) as Hd.
  pose proof (digits2_pos_bounds m) as [Hlo _].
  assert (Hk : k = Z.max (Zpos (digits2_pos m) - 53) 0).
  { unfold k, fexp, emin, B64.prec, B64.emax. cbn [Zdigits2]. lia. }
  assert (Hk0 : 0 <= k) by lia.
  assert (Hpk : 0 < 2 ^ k) by (apply Z.pow_pos_nonneg; lia).
  split.
  - apply Z.div_le_lower_bound; [exact Hpk|]. rewrite Z.mul_1_r.
    assert (2 ^ k <= 2 ^ (Zpos (digits2_pos m) - 1))
      by (apply Z.pow_le_mono_r; lia).
    lia.
  - destruct (Z.le_gt_cases 0 (- (e + k))) as [Hn|Hn].
    + apply Z.div_le_lower_bound; [exact Hpk|].
      rewrite <- Z.pow_add_r by lia.
      replace (k + - (e + k)) with (- e) by lia. exact Hm.
    + rewrite Z.pow_neg_r by lia. apply Z.div_pos; lia.
Qed.

(** Rounding a value that is at least 1 gives a double that is at least 1. *)
Lemma binary_round_aux_at_least_one (m : positive) (e : Z) (l : location) :
  2 ^ (- e) <= Zpos m ->
  at_least_one (binary_round_aux B64.prec B64.emax false (Zpos m) e l).
Proof.
  intros Hm. unfold binary_round_aux, shr_fexp.
  destruct (shift_at_least_one m e Hm) as [Hp1 Hb1].
  set (n1 := fexp B64.prec B64.emax (Zdigits2 (Zpos m) + e) - e) in *.
  destruct (shr_spec (shr_record_of_loc (Zpos m) l) e n1) as [mrs1 [-> Hm1]];
    [rewrite shr_m_record_of_loc; lia|].
  rewrite shr_m_record_of_loc in Hm1. rewrite <- Hm1 in Hp1, Hb1.
  pose proof (round_nearest_even_bounds (shr_m mrs1) (loc_of_shr_record mrs1))
    as Hr.
  set (e1 := e + Z.max n1 0) in *.
  destruct (round_nearest_even (shr_m mrs1) (loc_of_shr_record mrs1))
    as [|m1|m1] eqn:Hm1'; try lia.
  assert (Hge1 : 2 ^ (- e1) <= Zpos m1) by lia.
  destruct (shift_at_least_one m1 e1 Hge1) as [Hp2 Hb2].
  set (n2 := fexp B64.prec B64.emax (Zdigits2 (Zpos m1) + e1) - e1) in *.
  destruct (shr_spec (shr_record_of_loc (Zpos m1) loc_Exact) e1 n2)
    as [mrs2 [-> Hm2]]; [simpl; lia|].
  cbn [shr_record_of_loc shr_m] in Hm2. rewrite <- Hm2 in Hp2, Hb2.
  destruct (shr_m mrs2) as [|m2|m2]; try lia.
  destruct (e1 + Z.max n2 0 <=? B64.emax - B64.prec); simpl; [exact Hb2|exact I].
Qed.

Lemma at_least_one_nonzero (x : spec_float) :
  at_least_one x -> SFeqb x B64.zero = false.
Proof. destruct x as [[]|[]| |[] m e]; simpl; try contradiction; reflexivity. Qed.

Lemma at_least_one_mul (x y : spec_float) :
  at_least_one x -> at_least_one y ->
  at_least_one (SFmul B64.prec B64.emax x y).
Proof.
  destruct x as [[]|[]| |[] mx ex]; simpl; try contradiction;
    destruct y as [[]|[]| |[] my ey]; simpl; try contradiction; try (intros; exact I).
  intros Hx Hy. apply binary_round_aux_at_least_one.
  rewrite Pos2Z.inj_mul.
  destruct (Z.le_gt_cases 0 (- (ex + ey))) as [Hn|Hn];
    [|rewrite Z.pow_neg_r by lia; lia].
  destruct (Z.le_gt_cases 0 (- ex)) as [Hx0|Hx0];
    destruct (Z.le_gt_cases 0 (- ey)) as [Hy0|Hy0].
  - replace (- (ex + ey)) with (- ex + - ey) by lia.
    rewrite Z.pow_add_r by lia.
    apply Z.mul_le_mono_nonneg; try assumption; apply Z.pow_nonneg; lia.
  - assert (2 ^ (- (ex + ey)) <= 2 ^ (- ex)) by (apply Z.pow_le_mono_r; lia).
    nia.
  - assert (2 ^ (- (ex + ey)) <= 2 ^ (- ey)) by (apply Z.pow_le_mono_r; lia).
    nia.
  - lia.
Qed.

Lemma div2_double_le (e : Z) : 2 * Z.div2 e <= e.
Proof. rewrite Z.div2_div. pose proof (Z.mul_div_le e 2). lia. Qed.

Lemma at_least_one_sqrt (m : positive) (e : Z) :
  e <= 0 -> 2 ^ (- e) <= Zpos m ->
  at_least_one (SFsqrt B64.prec B64.emax (S754_finite false m e)).
Proof.
  intros He Hm. unfold SFsqrt, SFsqrt_core_binary.
  set (e' := Z.min (fexp B64.prec B64.emax
                      (Z.div2 (Zdigits2 (Zpos m) + e + 1))) (Z.div2 e)).
  pose proof (div2_double_le e) as Hdiv.
  assert (He' : 2 * e' <= e) by (unfold e'; lia).
  assert (He'0 : e' <= 0) by lia.
  set (s := e - 2 * e').
  assert (Hs : 0 <= s) by (unfold s; lia).
  set (m' := match s with
             | 0 => Zpos m
             | Zpos _ => Z.shiftl (Zpos m) s
             | Zneg _ => 0
             end).
  assert (Hm' : m' = Zpos m * 2 ^ s).
  { unfold m'. destruct s as [|p|p] eqn:Es; [lia| |lia].
    apply Z.shiftl_mul_pow2. lia. }
  assert (Hsq : 2 ^ (- e') * 2 ^ (- e') <= m').
  { rewrite Hm', <- Z.pow_add_r by lia.
    replace (- e' + - e') with (- e + s) by (unfold s; lia).
    rewrite Z.pow_add_r by lia.
    apply Z.mul_le_mono_nonneg_r; [apply Z.pow_nonneg; lia|exact Hm]. }
  assert (Hp : 0 < 2 ^ (- e')) by (apply Z.pow_pos_nonneg; lia).
  assert (Hq : 2 ^ (- e') <= Z.sqrt m').
  { rewrite <- (Z.sqrt_square (2 ^ (- e'))) by lia.
    apply Z.sqrt_le_mono. exact Hsq. }
  pose proof (Z.sqrtrem_sqrt m') as Hfst.
  destruct (Z.sqrtrem m') as [q r]. cbn [fst] in Hfst. subst q.
  destruct (Z.sqrt m') as [|q|q] eqn:Eq; try lia.
  apply binary_round_aux_at_least_one. exact Hq.
Qed.

(** The magnitude of a non-zero count vector is at least 1. *)
Lemma magnitude_at_least_one (s : Z) :
  0 < s < 2 ^ 53 ->
  at_least_one (SFsqrt B64.prec B64.emax (B64.round_int s)).
Proof.
  intros [Hs Hlt]. destruct s as [|p|p]; try lia.
  destruct (round_int_small p Hlt) as [m [-> [Hm _]]].
  pose proof (digits2_pos_le_53 p Hlt) as Hd.
  apply at_least_one_sqrt; [lia|].
  rewrite Hm. replace (- (Zpos (digits2_pos p) - 53))
    with (53 - Zpos (digits2_pos p)) by lia.
  assert (0 < 2 ^ (53 - Zpos (digits2_pos p)))
    by (apply Z.pow_pos_nonneg; lia).
  nia.
Qed.

Lemma cosine_of_sums_total (d s1 s2 : Z) :
  0 <= s1 < 2 ^ 53 -> 0 <= s2 < 2 ^ 53 ->
  (exists r, cosine_of_sums (PF := binary64) B64.round_int d s1 s2 = Ok r)
  /\ (d = 0 -> cosine_of_sums (PF := binary64) B64.round_int d s1 s2
               = Ok B64.zero).
Proof.
  intros H1 H2. unfold cosine_of_sums.
  cbn [fpow_half feq_zero fdiv fmul fzero binary64].
  destruct (Z.eq_dec s1 0) as [->|Hs1]; [split; [eexists|intros _]; reflexivity|].
  destruct (Z.eq_dec s2 0) as [->|Hs2].
  { rewrite orb_true_r. split; [eexists|intros _]; reflexivity. }
  pose proof (magnitude_at_least_one s1 ltac:(lia)) as Hm1.
  pose proof (magnitude_at_least_one s2 ltac:(lia)) as Hm2.
  pose proof (at_least_one_mul _ _ Hm1 Hm2) as Hm.
  rewrite (at_least_one_nonzero _ Hm1), (at_least_one_nonzero _ Hm2).
  cbn [orb]. unfold B64.div. rewrite (at_least_one_nonzero _ Hm).
  split; [eexists; reflexivity|]. intros ->. f_equal.
  change (B64.round_int 0) with (S754_zero false).
  destruct (SFmul B64.prec B64.emax _ _) as [[]|[]| |[] m e];
    simpl in Hm; try contradiction; reflexivity.
Qed.

Lemma int_dot_self_zero (v1 v2 : list Z) :
  Forall (Z.le 0) v1 -> Forall (Z.le 0) v2 ->
  length v1 = length v2 -> int_dot v1 v1 = 0 -> int_dot v1 v2 = 0.
Proof.
  intros H1. revert v2. induction H1 as [|x v1 Hx H1 IH]; intros v2 H2 Hlen Hz.
  - reflexivity.
  - destruct H2 as [|y v2 Hy H2]; [discriminate|].
    rewrite int_dot_cons in *. pose proof (int_dot_self_nonneg v1).
    assert (x = 0) by nia. subst x.
    rewrite IH; [lia|exact H2|simpl in Hlen; lia|lia].
Qed.

(** X9: on two vectors of counts whose sums of squares and dot product are
    below [2^53], [calculate_cosine_similarity] always returns a number: the
    product of two non-zero magnitudes is never zero, so the division never
    raises [ZeroDivisionError]; and the result is exactly 0.0 when the dot
    product is zero, that is for vectors with no common non-zero entry. *)
Theorem cosine_similarity_counts (v1 v2 : list Z) :
  Forall (Z.le 0) v1 -> Forall (Z.le 0) v2 ->
  int_dot v1 v1 < 2 ^ 53 -> int_dot v2 v2 < 2 ^ 53 -> int_dot v1 v2 < 2 ^ 53 ->
  (exists r, calculate_cosine_similarity (PF := binary64) v1 v2 = Ok r)
  /\ (int_dot v1 v2 = 0 ->
      calculate_cosine_similarity (PF := binary64) v1 v2 = Ok B64.zero).
Proof.
  intros H1 H2 S1 S2 S12.
  rewrite (cosine_similarity_sums B64.round_int _ binary64_integer_exact
             v1 v2 H1 H2 S1 S2 S12).
  apply cosine_of_sums_total.
  - split; [apply int_dot_self_nonneg|exact S1].
  - split; [apply int_dot_self_nonneg|exact S2].
Qed.

End Magnitudes.

(** X9, witness: the orthogonal vectors of the unit test. *)
Lemma cosine_similarity_counts_witness :
  calculate_cosine_similarity (PF := binary64) [1; 0] [0; 1] = Ok B64.zero.
Proof.
  apply (cosine_similarity_counts [1; 0] [0; 1]);
    try (repeat constructor; lia); reflexivity.
Defined.

(** * Further properties of the pipeline *)

Section PipelineMore.

Variable ua : char -> bool.
Variable jieba_lcut : str -> list str.
Variable list_set : list str -> list str.
Context {Path : Type}.
Variable files : Path -> option str.


Lemma occurrences_absent (word : str) (words : list str) :
  word ∉ words -> occurrences word words = 0.
Proof.
  induction words as [|x words IH]; intros Hout; [reflexivity|].
  cbn [occurrences]. destruct (decide (x = word)) as [->|Hne].
  - exfalso. apply Hout, list_elem_of_here.
  - apply IH. intros Hin. apply Hout, list_elem_of_further, Hin.
Qed.

Lemma counts_dot_bound (wa wb vocabulary : list str) :
  NoDup vocabulary ->
  Z.of_nat (length wa) < 2 ^ 26 -> Z.of_nat (length wb) < 2 ^ 26 ->
  int_dot (map (fun w => occurrences w wa) vocabulary)
          (map (fun w => occurrences w wb) vocabulary) < 2 ^ 53.
Proof.
  intros Hl Ha Hb.
  pose proof (int_dot_le_sums _ _ (occurrences_vector_nonneg wa vocabulary)
                (occurrences_vector_nonneg wb vocabulary)) as Hle.
  pose proof (occurrences_sum_le wa vocabulary Hl) as Hsa.
  pose proof (occurrences_sum_le wb vocabulary Hl) as Hsb.
  pose proof (int_sum_nonneg _ (occurrences_vector_nonneg wa vocabulary)) as Hna.
  pose proof (int_sum_nonneg _ (occurrences_vector_nonneg wb vocabulary)) as Hnb.
  change (2 ^ 26) with 67108864 in *.
  change (2 ^ 53) with 9007199254740992. nia.
Qed.

Lemma counts_dot_disjoint (wa wb vocabulary : list str) :
  (forall w, w ∈ wa -> w ∉ wb) ->
  int_dot (map (fun w => occurrences w wa) vocabulary)
          (map (fun w => occurrences w wb) vocabulary) = 0.
Proof.
  intros Hdis. rewrite int_dot_map.
  induction vocabulary as [|w vocabulary IH]; [reflexivity|].
  cbn [map]. change (int_sum (?a :: ?l)) with (a + int_sum l). rewrite IH.
  destruct (decide (w ∈ wa)) as [Hin|Hout].
  - rewrite (occurrences_absent w wb (Hdis w Hin)). lia.
  - rewrite (occurrences_absent w wa Hout). lia.
Qed.

Lemma cosine_counts_total (wa wb vocabulary : list str) :
  NoDup vocabulary ->
  Z.of_nat (length wa) < 2 ^ 26 -> Z.of_nat (length wb) < 2 ^ 26 ->
  (exists c, calculate_cosine_similarity (PF := binary64)
               (map (fun w => occurrences w wa) vocabulary)
               (map (fun w => occurrences w wb) vocabulary) = Ok c)
  /\ ((forall w, w ∈ wa -> w ∉ wb) ->
      calculate_cosine_similarity (PF := binary64)
        (map (fun w => occurrences w wa) vocabulary)
        (map (fun w => occurrences w wb) vocabulary) = Ok B64.zero).
Proof.
  intros Hnd Ha Hb.
  rewrite (cosine_similarity_sums B64.round_int _ binary64_integer_exact)
    by (try apply occurrences_vector_nonneg; apply counts_dot_bound; assumption).
  destruct (cosine_of_sums_total
              (int_dot (map (fun w => occurrences w wa) vocabulary)
                       (map (fun w => occurrences w wb) vocabulary))
              (int_dot (map (fun w => occurrences w wa) vocabulary)
                       (map (fun w => occurrences w wa) vocabulary))
              (int_dot (map (fun w => occurrences w wb) vocabulary)
                       (map (fun w => occurrences w wb) vocabulary)))
    as [Hex Hzero].
  - split; [apply int_dot_self_nonneg|apply counts_dot_bound; assumption].
  - split; [apply int_dot_self_nonneg|apply counts_dot_bound; assumption].
  - split; [exact Hex|]. intros Hdis. apply Hzero, counts_dot_disjoint, Hdis.
Qed.

Lemma edit_similarity_total (text1 text2 : str) :
  exists e, calculate_edit_distance_similarity (PF := binary64) text1 text2
            = Ok e
            /\ SFleb B64.zero e = true /\ SFleb e B64.one = true.
Proof.
  unfold calculate_edit_distance_similarity.
  cbn [int_truediv fsub fone binary64].
  destruct (Z.max (Z.of_nat (length text1)) (Z.of_nat (length text2)) =? 0)
    eqn:E.
  - exists B64.one. repeat split; reflexivity.
  - apply Z.eqb_neq in E. pose proof (levenshtein_le_max text1 text2) as Hle.
    destruct (truediv_in_unit (Z.of_nat (levenshtein_distance text1 text2))
                (Z.max (Z.of_nat (length text1)) (Z.of_nat (length text2))))
      as [q [-> Hu]]; [lia|lia|].
    eexists. split; [reflexivity|]. apply in_unit_bounds, sub_one_unit, Hu.
Qed.

Lemma is_empty_false (text : str) : text <> [] -> is_empty text = false.
Proof. destruct text; [contradiction|reflexivity]. Qed.

Hypothesis list_set_ok : list_set_contract list_set.

(** With both files read and neither normalised text empty, the pipeline
    is the two similarities of the texts and of their count vectors. *)
Lemma calculate_similarity_counts (file_path1 file_path2 : Path)
    (raw_text1 raw_text2 : str) (cosine_weight edit_distance_weight : spec_float) :
  files file_path1 = Some raw_text1 ->
  files file_path2 = Some raw_text2 ->
  preprocess_text ua raw_text1 <> [] ->
  preprocess_text ua raw_text2 <> [] ->
  let words1 := segment_text jieba_lcut (preprocess_text ua raw_text1) in
  let words2 := segment_text jieba_lcut (preprocess_text ua raw_text2) in
  let vocabulary := list_set (words1 ++ words2) in
  calculate_similarity (PF := binary64) ua jieba_lcut list_set files
    file_path1 file_path2 cosine_weight edit_distance_weight
  = match calculate_cosine_similarity (PF := binary64)
            (map (fun w => occurrences w words1) vocabulary)
            (map (fun w => occurrences w words2) vocabulary) with
    | Raise e => IO [] (Raise e)
    | Ok cosine_similarity =>
        match calculate_edit_distance_similarity (PF := binary64)
                (preprocess_text ua raw_text1) (preprocess_text ua raw_text2) with
        | Raise e => IO [PrintCosine cosine_similarity] (Raise e)
        | Ok edit_similarity =>
            IO [PrintCosine cosine_similarity; PrintEdit edit_similarity]
               (Ok (SFadd B64.prec B64.emax
                      (SFmul B64.prec B64.emax cosine_weight cosine_similarity)
                      (SFmul B64.prec B64.emax edit_distance_weight
                         edit_similarity)))
        end
    end.
Proof.
  intros Hf1 Hf2 Hne1 Hne2 words1 words2 vocabulary.
  unfold calculate_similarity, read_file.
  rewrite Hf1, Hf2. cbn [lift mbind io_bind outcome stdout app].
  rewrite (is_empty_false _ Hne1), (is_empty_false _ Hne2). cbn [orb].
  fold words1 words2. fold vocabulary.
  destruct (list_set_ok (words1 ++ words2)) as [Hnd _]. fold vocabulary in Hnd.
  rewrite !text_to_vector_map by assumption.
  cbn [outcome stdout app].
  destruct (calculate_cosine_similarity _ _) as [c|e]; [|reflexivity].
  cbn [outcome stdout app print mbind io_bind].
  destruct (calculate_edit_distance_similarity _ _) as [e|e]; reflexivity.
Qed.


End PipelineMore.



(** * The command line *)

Lemma encodable_app (a b : str) :
  encodable (a ++ b) = encodable a && encodable b.
Proof. apply forallb_app. Qed.

Lemma uint_digits_encodable (d : Decimal.uint) : encodable (uint_digits d) = true.
Proof. induction d; simpl; try assumption; reflexivity. Qed.

Lemma zeros_encodable (n : nat) : encodable (repeat 48 n) = true.
Proof. induction n; simpl; [reflexivity|assumption]. Qed.

Lemma sign_prefix_encodable (s : bool) : encodable (sign_prefix s) = true.
Proof. destruct s; reflexivity. Qed.

(** A formatted number is ASCII, so writing it cannot fail. *)
Lemma format_fixed_encodable (digits : nat) (x : spec_float) :
  encodable (format_fixed digits x) = true.
Proof.
  destruct x as [s|s| |s m e]; unfold format_fixed, decimal;
    rewrite ?encodable_app, ?sign_prefix_encodable, ?uint_digits_encodable,
      ?zeros_encodable; reflexivity.
Qed.

Lemma write_report (source_file_path check_file_path : str)
    (similarity_score : spec_float) :
  write_lines (report_lines source_file_path check_file_path similarity_score)
  = if encodable source_file_path
    then if encodable check_file_path
         then (concat (report_lines source_file_path check_file_path
                         similarity_score), None)
         else ([28304; 25991; 20214; 58; 32] ++ source_file_path ++ [10],
               Some UnicodeEncodeError)
    else ([], Some UnicodeEncodeError).
Proof.
  unfold report_lines. cbn [write_lines concat].
  rewrite !encodable_app, format_fixed_encodable.
  change (encodable [28304; 25991; 20214; 58; 32]) with true.
  change (encodable [24453; 26816; 27979; 25991; 20214; 58; 32]) with true.
  change (encodable [26597; 37325; 30456; 20284; 24230; 58; 32]) with true.
  change (encodable [10]) with true. cbn [andb]. rewrite !andb_true_r.
  destruct (encodable source_file_path); [|reflexivity].
  destruct (encodable check_file_path); [|rewrite app_nil_r; reflexivity].
  rewrite !app_nil_r. reflexivity.
Qed.

Section MainProperties.

Variable ua : char -> bool.
Variable jieba_lcut : str -> list str.
Variable list_set : list str -> list str.
Context {File : Type} `{EqDecision File}.
Variable resolve : str -> File.
Variable can_open_w : str -> bool.

Lemma length_four (argv : list str) :
  length argv = 4%nat -> negb (length argv =? 4)%nat = false.
Proof. intros ->. reflexivity. Qed.

(** X11: the exit status of [main] is 0 or 1, and it is 0 exactly when
    there are three arguments, [calculate_similarity] returns a score, the
    output file can be opened and the two input paths can be encoded in
    UTF-8; with status 1 the last thing printed is the usage or an error
    message. *)
Theorem main_exit_status (argv : list str) (disk : File -> option str) :
  let run := main ua jieba_lcut list_set resolve can_open_w argv disk in
  let similarity :=
    calculate_similarity (PF := binary64) ua jieba_lcut list_set
      (fun file_path => disk (resolve file_path))
      (nth 1 argv []) (nth 2 argv []) weight_07 weight_03 in
  (exit_status run = 0 \/ exit_status run = 1)
  /\ (exit_status run = 0 <->
      length argv = 4%nat
      /\ (exists similarity_score, outcome similarity = Ok similarity_score)
      /\ can_open_w (nth 3 argv []) = true
      /\ encodable (nth 1 argv []) = true
      /\ encodable (nth 2 argv []) = true)
  /\ (exit_status run = 1 ->
      exists printed,
        console run = printed ++ [PrintUsage]
        \/ exists e, console run = printed ++ [PrintFailure e]).
Proof.
  intros run similarity. unfold run, main. fold similarity.
  destruct (Nat.eqb_spec (length argv) 4) as [Hlen|Hlen]; cbn [negb].
  2:{ split; [right; reflexivity|]. split.
      - split; [discriminate|]. intros [Hl _]. contradiction.
      - intros _. exists []. left. reflexivity. }
  destruct (outcome similarity) as [score|e].
  2:{ split; [right; reflexivity|]. split.
      - split; [discriminate|]. intros (_ & [s [=]] & _).
      - intros _. eexists. right. eexists. reflexivity. }
  destruct (can_open_w (nth 3 argv [])).
  2:{ split; [right; reflexivity|]. split.
      - split; [discriminate|]. intros (_ & _ & [=] & _).
      - intros _. eexists. right. eexists. reflexivity. }
  rewrite write_report.
  destruct (encodable (nth 1 argv [])).
  2:{ split; [right; reflexivity|]. split.
      - split; [discriminate|]. intros (_ & _ & _ & [=] & _).
      - intros _. eexists. right. eexists. reflexivity. }
  destruct (encodable (nth 2 argv [])).
  2:{ split; [right; reflexivity|]. split.
      - split; [discriminate|]. intros (_ & _ & _ & _ & [=]).
      - intros _. eexists. right. eexists. reflexivity. }
  split; [left; reflexivity|]. split.
  - split; [|reflexivity]. intros _. repeat split; eauto.
  - discriminate.
Qed.

(** X12: [main] changes no file but the one its third argument names.  It
    changes no file at all when the arguments are not three, when
    [calculate_similarity] raises or when the output file cannot be opened.
    With exit status 0 the output file holds the three lines of the report
    with the score that was returned.  When the source path cannot be
    encoded the output file is left empty, and when only the check path
    cannot be encoded it keeps the first line alone. *)
Theorem main_files (argv : list str) (disk : File -> option str) :
  let run := main ua jieba_lcut list_set resolve can_open_w argv disk in
  let source_file_path := nth 1 argv [] in
  let check_file_path := nth 2 argv [] in
  let output_file_path := nth 3 argv [] in
  let similarity :=
    calculate_similarity (PF := binary64) ua jieba_lcut list_set
      (fun file_path => disk (resolve file_path))
      source_file_path check_file_path weight_07 weight_03 in
  (forall file, file <> resolve output_file_path ->
                disk_after run file = disk file)
  /\ (length argv <> 4%nat \/ (exists e, outcome similarity = Raise e)
      \/ can_open_w output_file_path = false ->
      forall file, disk_after run file = disk file)
  /\ (exit_status run = 0 ->
      exists similarity_score,
        outcome similarity = Ok similarity_score
        /\ console run = map PrintLine (stdout similarity)
                           ++ [PrintResult similarity_score]
        /\ disk_after run (resolve output_file_path)
           = Some (concat (report_lines source_file_path check_file_path
                             similarity_score)))
  /\ (length argv = 4%nat ->
      (exists similarity_score, outcome similarity = Ok similarity_score) ->
      can_open_w output_file_path = true ->
      (encodable source_file_path = false ->
       disk_after run (resolve output_file_path) = Some [])
      /\ (encodable source_file_path = true ->
          encodable check_file_path = false ->
          disk_after run (resolve output_file_path)
          = Some ([28304; 25991; 20214; 58; 32] ++ source_file_path ++ [10]))).
Proof.
  intros run source_file_path check_file_path output_file_path similarity.
  unfold run, main.
  fold source_file_path check_file_path output_file_path. fold similarity.
  destruct (Nat.eqb_spec (length argv) 4) as [Hlen|Hlen]; cbn [negb].
  2:{ cbn [disk_after exit_status]. repeat split; try reflexivity;
        try discriminate; intros; contradiction. }
  destruct (outcome similarity) as [score|e].
  2:{ cbn [disk_after exit_status]. repeat split; try reflexivity;
        try discriminate; intros; destruct_and?;
        match goal with H : exists _, Raise _ = Ok _ |- _ =>
          destruct H; discriminate end. }
  destruct (can_open_w output_file_path).
  2:{ cbn [disk_after exit_status]. repeat split; try reflexivity;
        try discriminate. }
  rewrite write_report.
  destruct (encodable source_file_path); [destruct (encodable check_file_path)|];
    cbn [disk_after exit_status console].
  - split; [intros file Hfile; rewrite decide_False by exact Hfile; reflexivity|].
    split; [intros [Hl|[[e [=]]|[=]]]; contradiction|].
    split; [|split; discriminate].
    intros _. exists score. rewrite decide_True by reflexivity.
    repeat split; reflexivity.
  - split; [intros file Hfile; rewrite decide_False by exact Hfile; reflexivity|].
    split; [intros [Hl|[[e [=]]|[=]]]; contradiction|].
    split; [discriminate|]. intros _ _ _. split; [discriminate|].
    intros _ _. rewrite decide_True by reflexivity. reflexivity.
  - split; [intros file Hfile; rewrite decide_False by exact Hfile; reflexivity|].
    split; [intros [Hl|[[e [=]]|[=]]]; contradiction|].
    split; [discriminate|]. intros _ _ _. split; [|discriminate].
    intros _. rewrite decide_True by reflexivity. reflexivity.
Qed.


Hypothesis list_set_ok : list_set_contract list_set.


End MainProperties.


(** The report of the sample run: the two paths and the score 0.5300. *)
Example test_main_report :
  disk_after (main no_other_alnum sample_lcut sample_list_set
                (fun path : str => path) (fun _ => true)
                [[112]; [97]; [98]; [111]] sample_disk) [111]
  = Some [28304; 25991; 20214; 58; 32; 97; 10; 24453; 26816; 27979; 25991;
          20214; 58; 32; 98; 10; 26597; 37325; 30456; 20284; 24230; 58; 32;
          48; 46; 53; 51; 48; 48; 10].
Proof. vm_compute. reflexivity. Qed.


(** Formatting rounds to even at a tie (0.125 and 0.375 to two places) and
    keeps the sign of a number that rounds to zero (-0.00004). *)
Example test_format_fixed :
  format_fixed 2 (S754_finite false 4503599627370496 (-55)) = [48; 46; 49; 50]
  /\ format_fixed 2 (S754_finite false 6755399441055744 (-54))
     = [48; 46; 51; 56]
  /\ format_fixed 4 (S754_finite true 5902958103587057 (-69))
     = [45; 48; 46; 48; 48; 48; 48].
Proof. repeat split; vm_compute; reflexivity. Qed.
